(** * minitorch.autodiff: central differences, topological sort, backpropagation

    A shallow embedding of [minitorch/autodiff.py] and the properties of its
    four components: [central_difference], [topological_sort],
    [backpropagate] and the [Context] scratch record.

    Conventions of the embedding.
    - [Variable] and [Context] are reserved words of the vernacular, so the
      two classes are called [Var] and [Ctx] here; every other name is the
      one of the source.
    - Python [float] is IEEE binary64, which is the primitive [float] type.
    - Gradient values travel through [backpropagate] as exact integers
      ([Z]): the claims about sums of gradients are about the algorithm,
      not about rounding.
    - A Python object graph is a tree of records whose nodes are identified
      by [unique_id]; a shared node is the same record reached twice.
    - The calls [backpropagate] makes to the abstract methods
      [accumulate_derivative] and [chain_rule] are recorded in a log. *)

From Stdlib Require Import ZArith List Floats Lia.
From stdpp Require Import gmap list.
Import ListNotations.

Set Warnings "-inexact-float,-register-all,-clear-no-such-hyp".
Open Scope Z_scope.

(** ** Context *)

Module Context.

(** [@dataclass class Context] with fields [no_grad] and [saved_values]. *)
Record Ctx (A : Type) : Type := mkCtx {
  no_grad : bool;
  saved_values : list A
}.
Arguments mkCtx {A} _ _.
Arguments no_grad {A} _.
Arguments saved_values {A} _.

(** [Context(no_grad=...)]: [saved_values] takes its default, the empty
    tuple. *)
Definition new {A : Type} (no_grad : bool) : Ctx A := mkCtx no_grad [].

(** [self.save_for_backward( *values )]; the result is [self] after the
    call. *)
Definition save_for_backward {A : Type} (self : Ctx A) (values : list A) : Ctx A :=
  if no_grad self then self
  else mkCtx (no_grad self) values.

(** The property [self.saved_tensors]. *)
Definition saved_tensors {A : Type} (self : Ctx A) : list A :=
  saved_values self.

(** A run of calls [save_for_backward( *vs )], oldest first. *)
Definition save_all {A : Type} (self : Ctx A) (calls : list (list A)) : Ctx A :=
  fold_left save_for_backward calls self.

End Context.

(** ** Central difference *)

Module CentralDifference.

Inductive PyError : Type :=
| IndexError
| ZeroDivisionError.

(** A computation that may raise and that records, in order, the argument
    lists its function argument was called with. *)
Definition Eval (A : Type) : Type := (list (list float) * (PyError + A))%type.

Definition ret {A : Type} (a : A) : Eval A := ([], inr a).

Definition raise {A : Type} (e : PyError) : Eval A := ([], inl e).

Definition bind {A B : Type} (m : Eval A) (k : A -> Eval B) : Eval B :=
  match m with
  | (log, inl e) => (log, inl e)
  | (log, inr a) => let '(log', r) := k a in (log ++ log', r)
  end.

Notation "'let*' x ':=' m 'in' k" := (bind m (fun x => k))
  (at level 10, x name, m at level 100, k at level 200).

(** [f( *args )]. *)
Definition call (f : list float -> float) (args : list float) : Eval float :=
  ([args], inr (f args)).

(** The position a Python list of length [n] gives to index [i]:
    negative indices count from the end, anything else is out of range. *)
Definition list_index (n : nat) (i : Z) : option nat :=
  if (0 <=? i) && (i <? Z.of_nat n) then Some (Z.to_nat i)
  else if (- Z.of_nat n <=? i) && (i <? 0) then Some (Z.to_nat (Z.of_nat n + i))
  else None.

(** [l[i] = op(l[i])] on a copy of [l]; [IndexError] out of range. *)
Definition list_update (l : list float) (i : Z) (op : float -> float) : Eval (list float) :=
  match list_index (length l) i with
  | Some k =>
      match l !! k with
      | Some y => ret (<[k := op y]> l)
      | None => raise IndexError
      end
  | None => raise IndexError
  end.

(** [a / b] on Python floats. *)
Definition truediv (a b : float) : Eval float :=
  if (b =? 0)%float then raise ZeroDivisionError else ret (a / b)%float.

Definition default_arg : Z := 0.
Definition default_epsilon : float := 1e-6%float.

(** [central_difference(f, *vals, arg=..., epsilon=...)]; a keyword left
    out is [None]. *)
Definition central_difference (f : list float -> float) (vals : list float)
    (arg : option Z) (epsilon : option float) : Eval float :=
  let arg := default default_arg arg in
  let epsilon := default default_epsilon epsilon in
  let* new_vals_plus := list_update vals arg (fun y => y + epsilon)%float in
  let* new_vals_minus := list_update vals arg (fun y => y - epsilon)%float in
  let* f_plus := call f new_vals_plus in
  let* f_minus := call f new_vals_minus in
  truediv (f_plus - f_minus)%float (2 * epsilon)%float.

(** The calls made to [f], and the outcome. *)
Definition calls_of {A : Type} (m : Eval A) : list (list float) := fst m.
Definition result_of {A : Type} (m : Eval A) : PyError + A := snd m.

End CentralDifference.

(** ** The computation graph *)

Module Autodiff.

(** Modelled from the spec: the class of the objects behind
    [variable.history], which the source reads but does not declare.  The
    spec makes it the triple of the operation, the [Context] of its forward
    evaluation and the ordered input Variables, the operation being absent
    on an original input.  The source reads only [history.inputs]. *)
Record History (V : Type) : Type := mkHistory {
  last_fn : option nat;
  ctx : option (Context.Ctx Z);
  inputs : list V
}.
Arguments mkHistory {V} _ _ _.
Arguments last_fn {V} _.
Arguments ctx {V} _.
Arguments inputs {V} _.

(** [class Variable(Protocol)], with the [history] attribute that
    [topological_sort] reads.  [is_leaf], [is_constant] and [chain_rule]
    are the protocol's abstract methods: nothing ties them to [history].
    The method [accumulate_derivative] has no result; a call to it is an
    entry of the log of [backpropagate]. *)
Inductive Var : Type := mkVar {
  unique_id : Z;
  history : option (History Var);
  is_leaf : bool;
  is_constant : bool;
  chain_rule : Z -> list (Var * Z)
}.

(** *** topological_sort *)

(** The two locals [visit] closes over. *)
Record SortState : Type := mkSortState {
  visited : gset Z;
  top_order : list Var
}.

(** The inner function [visit]; the nested [loop] is its [for neigh in
    variable.history.inputs]. *)
Fixpoint visit (variable : Var) (st : SortState) : SortState :=
  if bool_decide (unique_id variable ∈ visited st) then st
  else
    let st1 := mkSortState ({[unique_id variable]} ∪ visited st) (top_order st) in
    match history variable with
    | None => st1
    | Some h =>
        let st2 :=
          (fix loop (l : list Var) (s : SortState) {struct l} : SortState :=
             match l with
             | [] => s
             | neigh :: l' =>
                 loop l' (if bool_decide (unique_id neigh ∈ visited s) then s
                          else visit neigh s)
             end) (inputs h) st1 in
        mkSortState (visited st2) (top_order st2 ++ [variable])
    end.

Definition topological_sort (variable : Var) : list Var :=
  let st := visit variable (mkSortState ∅ [variable]) in
  rev (top_order st).

(** *** backpropagate *)

(** A call to one of the two abstract methods that [backpropagate] uses. *)
Inductive Call : Type :=
| accumulate_derivative (self : Var) (x : Z)
| chain_rule_call (self : Var) (d_output : Z).

Record BackState : Type := mkBackState {
  cur_derivs : gmap Z Z;
  calls : list Call
}.

(** The body of [for inp, grad in chain_seq]. *)
Definition add_grad (cur : gmap Z Z) (p : Var * Z) : gmap Z Z :=
  match cur !! unique_id (fst p) with
  | Some g => <[unique_id (fst p) := g + snd p]> cur
  | None => <[unique_id (fst p) := snd p]> cur
  end.

(** The body of [for node in top_order]. *)
Definition backprop_step (st : BackState) (node : Var) : BackState :=
  let '(cur, cur_der) :=
    match cur_derivs st !! unique_id node with
    | Some g => (cur_derivs st, g)
    | None => (<[unique_id node := 0]> (cur_derivs st), 0)
    end in
  if is_leaf node then
    mkBackState cur (calls st ++ [accumulate_derivative node cur_der])
  else
    let chain_seq := chain_rule node cur_der in
    mkBackState (fold_left add_grad chain_seq cur)
                (calls st ++ [chain_rule_call node cur_der]).

(** [backpropagate(variable, deriv)]: the source returns [None]; what it
    does is the sequence of calls in the final state. *)
Definition backpropagate (variable : Var) (deriv : Z) : BackState :=
  let top_order := topological_sort variable in
  fold_left backprop_step top_order
            (mkBackState {[unique_id variable := deriv]} []).

(** *** Vocabulary of the statements *)

(** [reach v u]: [u] is [v] or is reached from [v] along [history.inputs]. *)
Inductive reach : Var -> Var -> Prop :=
| reach_refl v : reach v v
| reach_step v h p u :
    history v = Some h -> In p (inputs h) -> reach p u -> reach v u.

(** The inputs recorded in the History of a Variable; none without a
    History.  (The protocol's own [parents] property is abstract and never
    read by the source.) *)
Definition parents (v : Var) : list Var :=
  match history v with
  | Some h => inputs h
  | None => []
  end.

(** Every node of the graph under [v], a shared node once per path. *)
Fixpoint nodes (v : Var) : list Var :=
  v :: match history v with
       | None => []
       | Some h =>
           (fix go (l : list Var) : list Var :=
              match l with
              | [] => []
              | p :: l' => nodes p ++ go l'
              end) (inputs h)
       end.

(** Number of nodes under [v], counted per path. *)
Definition size (v : Var) : nat := length (nodes v).

(** No two Variables of the graph share a [unique_id]. *)
Definition unique_ids (root : Var) : Prop :=
  forall u w, reach root u -> reach root w ->
              unique_id u = unique_id w -> u = w.

(** How often the Variable with id [i] occurs in a sequence. *)
Definition occurrences (i : Z) (l : list Var) : nat :=
  length (filter (fun w => unique_id w = i) l).

Definition call_target (c : Call) : Var :=
  match c with
  | accumulate_derivative v _ => v
  | chain_rule_call v _ => v
  end.

(** The values passed to [accumulate_derivative] on the Variable with id
    [i], in call order. *)
Definition accumulated (i : Z) (cs : list Call) : list Z :=
  flat_map (fun c => match c with
                     | accumulate_derivative v x =>
                         if bool_decide (unique_id v = i) then [x] else []
                     | chain_rule_call _ _ => []
                     end) cs.

(** The values [chain_rule] was called with on the Variable with id [i]. *)
Definition chain_rule_calls (i : Z) (cs : list Call) : list Z :=
  flat_map (fun c => match c with
                     | chain_rule_call v d =>
                         if bool_decide (unique_id v = i) then [d] else []
                     | accumulate_derivative _ _ => []
                     end) cs.

(** The call [backpropagate] makes on a node holding gradient [g]. *)
Definition call_on (node : Var) (g : Z) : Call :=
  if is_leaf node then accumulate_derivative node g
  else chain_rule_call node g.

(** The gradients that reach the Variable with id [x] from [v] when [v]
    holds [d], one per path: along a path every Variable hands [d] to its
    [chain_rule] and passes each input its share.  A path ends at [x]; it
    does not run through a leaf or a Variable without History. *)
Fixpoint path_grads (x : Z) (v : Var) (d : Z) : list Z :=
  if bool_decide (unique_id v = x) then [d]
  else if is_leaf v then []
  else match history v with
       | None => []
       | Some h =>
           (fix go (ps : list Var) (gs : list Z) {struct ps} : list Z :=
              match ps, gs with
              | p :: ps', g :: gs' => path_grads x p g ++ go ps' gs'
              | _, _ => []
              end) (inputs h) (map snd (chain_rule v d))
       end.

Definition sum_list (l : list Z) : Z := fold_right Z.add 0 l.

(** The total derivative at the Variable with id [x]: the sum over all
    paths. *)
Definition total_derivative (root : Var) (deriv : Z) (x : Z) : Z :=
  sum_list (path_grads x root deriv).

(** Every non-leaf Variable's [chain_rule] returns one pair per input, in
    order, the gradient being [d_output] times a local derivative. *)
Definition local_chain_rules (root : Var) : Prop :=
  forall v h, reach root v -> history v = Some h -> is_leaf v = false ->
    exists ws : list Z, length ws = length (inputs h) /\
      forall d, chain_rule v d = combine (inputs h) (map (Z.mul d) ws).

(** *** Auxiliary notions of the proofs *)

(** [visit] on every element of a list, left to right. *)
Definition visit_all (l : list Var) (s : SortState) : SortState :=
  fold_left (fun s p => visit p s) l s.

(** In an append order every input that has a History occurs before the
    Variable that consumes it. *)
Definition post_sorted (l : list Var) : Prop :=
  forall l1 w l2 p, l = l1 ++ w :: l2 ->
    In p (parents w) -> history p <> None -> In p l1.

(** The same, read from the other end. *)
Definition rev_sorted (l : list Var) : Prop :=
  forall l1 w l2 p, l = l1 ++ w :: l2 ->
    In p (parents w) -> history p <> None -> In p l2.

(** The gradient [cur_derivs] holds for id [i]; an absent key reads as the
    [0] that [backpropagate] writes before it reads. *)
Definition grad_of (cur : gmap Z Z) (i : Z) : Z := default 0 (cur !! i).

(** What a [chain_rule] result adds to the entry of id [i]. *)
Definition contrib (i : Z) (cs : list (Var * Z)) : Z :=
  sum_list (map (fun pg => if bool_decide (unique_id (fst pg) = i)
                           then snd pg else 0) cs).

(** The gradients after a node has been processed. *)
Definition next_grads (node : Var) (g : Z -> Z) : Z -> Z :=
  if is_leaf node then g
  else fun i => g i + contrib i (chain_rule node (g (unique_id node))).

(** The calls of the loop of [backpropagate] over [l], the dictionary seen
    as a function. *)
Fixpoint loop_calls (l : list Var) (g : Z -> Z) : list Call :=
  match l with
  | [] => []
  | node :: l' => call_on node (g (unique_id node)) :: loop_calls l' (next_grads node g)
  end.

(** The gradients after the loop over [l]. *)
Fixpoint loop_grads (l : list Var) (g : Z -> Z) : Z -> Z :=
  match l with
  | [] => g
  | node :: l' => loop_grads l' (next_grads node g)
  end.

(** The invariant of the traversal: the appended Variables are in append
    order, pairwise distinct, marked, with a History, and of the graph. *)
Definition sort_inv (root : Var) (st : SortState) : Prop :=
  post_sorted (top_order st) /\
  NoDup (map unique_id (top_order st)) /\
  forall w, In w (top_order st) ->
    unique_id w ∈ visited st /\ history w <> None /\ reach root w.

(** A marked Variable is done with: it has no History or it is appended. *)
Definition finished (st : SortState) (u : Var) : Prop :=
  unique_id u ∈ visited st -> history u = None \/ In u (top_order st).

(** What a traversal from [st] to [st'] inside the region [R] guarantees. *)
Definition visit_post (root : Var) (R : Var -> Prop) (st st' : SortState) : Prop :=
  sort_inv root st' /\
  visited st ⊆ visited st' /\
  (exists new, top_order st' = top_order st ++ new /\ forall u, In u new -> R u) /\
  (forall u, reach root u -> unique_id u ∈ visited st' ->
             unique_id u ∉ visited st -> history u = None \/ In u (top_order st')).

(** The Variables strictly under [v]. *)
Definition below (v u : Var) : Prop :=
  exists p, In p (parents v) /\ reach p u.

(** The share of a gradient held at [u] that reaches the Variable with id
    [x]: the sum over the paths of the products of the local derivatives. *)
Definition path_coeff (x : Z) (u : Var) : Z := sum_list (path_grads x u 1).

(** What the gradients held for the Variables of [rem] will still bring to
    the Variable with id [x]. *)
Definition potential (x : Z) (g : Z -> Z) (rem : list Var) : Z :=
  sum_list (map (fun u => g (unique_id u) * path_coeff x u) rem).

End Autodiff.

(** ** Example graphs *)

Module Examples.
Import Autodiff.

(** A leaf whose History records no inputs. *)
Definition leaf (i : Z) : Var :=
  mkVar i (Some (mkHistory None None [])) true false (fun _ => []).

(** A leaf without History that is not a constant. *)
Definition bare_leaf (i : Z) : Var :=
  mkVar i None true false (fun _ => []).

(** A derived Variable: inputs [ps] with local derivatives [ws]. *)
Definition derived (i : Z) (ps : list Var) (ws : list Z) : Var :=
  mkVar i (Some (mkHistory (Some 0%nat) None ps)) false false
        (fun d => combine ps (map (Z.mul d) ws)).

(** [y = f(x)] with [x] a bare leaf. *)
Definition bare_x : Var := bare_leaf 2.
Definition over_bare : Var := derived 1 [bare_x] [2].

(** [y = f(x)] with [x] a leaf that has a History. *)
Definition chain_x : Var := leaf 2.
Definition chain_y : Var := derived 1 [chain_x] [2].

(** [y = f(c)] where [c] is a derived Variable whose [is_constant()] is
    true. *)
Definition const_c : Var :=
  mkVar 2 (Some (mkHistory (Some 0%nat) None [])) false true (fun _ => []).
Definition over_const : Var := derived 1 [const_c] [2].

(** [y = f(k)] where [k] is a constant without History. *)
Definition bare_const : Var := mkVar 2 None false true (fun _ => []).
Definition over_bare_const : Var := derived 1 [bare_const] [2].

(** The diamond [d = a(b(x), c(x))]. *)
Definition diamond_x : Var := leaf 4.
Definition diamond_b : Var := derived 2 [diamond_x] [2].
Definition diamond_c : Var := derived 3 [diamond_x] [3].
Definition diamond_d : Var := derived 1 [diamond_b; diamond_c] [5; 7].

(** The same diamond over a bare leaf. *)
Definition bare_diamond_x : Var := bare_leaf 4.
Definition bare_diamond_b : Var := derived 2 [bare_diamond_x] [2].
Definition bare_diamond_c : Var := derived 3 [bare_diamond_x] [3].
Definition bare_diamond_d : Var := derived 1 [bare_diamond_b; bare_diamond_c] [5; 7].

(** A Variable computed from the single input [x], with chain rule [f]. *)
Definition unary (i : Z) (x : Var) (f : Z -> Z) : Var :=
  mkVar i (Some (mkHistory (Some 0%nat) None [x])) false false
        (fun g => [(x, f g)]).

(** The diamond in general: any four ids, any chain rules on the four
    edges; [x] is a leaf whose History records no inputs. *)
Definition diamond (id_d id_b id_c id_x : Z) (fdb fdc fbx fcx : Z -> Z) : Var :=
  let x := leaf id_x in
  let b := unary id_b x fbx in
  let c := unary id_c x fcx in
  mkVar id_d (Some (mkHistory (Some 0%nat) None [b; c])) false false
        (fun g => [(b, fdb g); (c, fdc g)]).

(** A function of two arguments for [central_difference]. *)
Definition prod2 (l : list float) : float :=
  match l with
  | [x; y] => (x * y)%float
  | _ => 0%float
  end.

End Examples.

(** * Properties *)

(** ** Context *)

Section ContextFacts.
Import Context.
Context {A : Type}.

Lemma save_for_backward_no_grad (self : Ctx A) (values : list A) :
  no_grad self = true -> save_for_backward self values = self.
Proof. unfold save_for_backward. now intros ->. Qed.

Lemma save_all_no_grad (calls : list (list A)) :
  forall self : Ctx A, no_grad self = true -> save_all self calls = self.
Proof.
  unfold save_all.
  induction calls as [|vs calls IH]; intros self Hng; simpl.
  - reflexivity.
  - rewrite save_for_backward_no_grad by exact Hng. now apply IH.
Qed.

(** C8. A Context created with [no_grad = true] has empty [saved_tensors]
    after any run of [save_for_backward] calls, and one more call leaves
    it as it is. *)
Theorem no_grad_context_stays_empty (calls : list (list A)) (values : list A) :
  let self : Ctx A := save_all (new true) calls in
  saved_tensors self = [] /\ save_for_backward self values = self.
Proof.
  simpl. rewrite save_all_no_grad by reflexivity.
  split; reflexivity.
Qed.

(** C9. With [no_grad = false], [saved_tensors] read after
    [save_for_backward( *values )] is [values]; a second call replaces
    what the first saved; a Context never saved to is empty. *)
Theorem save_for_backward_overwrites (self : Ctx A) (values values' : list A) :
  no_grad self = false ->
  saved_tensors (save_for_backward self values) = values /\
  saved_tensors (save_for_backward (save_for_backward self values) values') = values' /\
  saved_tensors (new false : Ctx A) = [].
Proof.
  intros Hng. unfold save_for_backward. rewrite Hng. simpl.
  repeat split.
Qed.

End ContextFacts.

Lemma save_for_backward_overwrites_witness :
  Context.no_grad (Context.mkCtx false [7]) = false /\
  Context.saved_tensors
    (Context.save_for_backward
       (Context.save_for_backward (Context.mkCtx false [7]) [1; 2]) [3]) = [3].
Proof.
  split; [reflexivity|].
  exact (proj1 (proj2 (save_for_backward_overwrites
                         (Context.mkCtx false [7]) [1; 2] [3] eq_refl))).
Defined.

(** ** Central difference *)

Section CentralDifferenceFacts.
Import CentralDifference.

Lemma list_index_lt (n : nat) (i : Z) (k : nat) :
  list_index n i = Some k -> (k < n)%nat.
Proof.
  unfold list_index.
  destruct ((0 <=? i) && (i <? Z.of_nat n)) eqn:E1.
  - intros [= <-]. apply andb_prop in E1 as [H1 H2]. lia.
  - destruct ((- Z.of_nat n <=? i) && (i <? 0)) eqn:E2; [|discriminate].
    intros [= <-]. apply andb_prop in E2 as [H1 H2]. lia.
Qed.

Lemma list_update_ok (l : list float) (i : Z) (op : float -> float) (k : nat) :
  list_index (length l) i = Some k ->
  exists y, l !! k = Some y /\ list_update l i op = ret (<[k := op y]> l).
Proof.
  intros Hk. unfold list_update. rewrite Hk.
  destruct (lookup_lt_is_Some_2 l k (list_index_lt _ _ _ Hk)) as [y Hy].
  exists y. now rewrite Hy.
Qed.

Lemma list_index_in_range (n : nat) (i : Z) :
  - Z.of_nat n <= i < Z.of_nat n ->
  list_index n i = Some (Z.to_nat (if 0 <=? i then i else Z.of_nat n + i)).
Proof.
  intros Hr. unfold list_index.
  destruct (0 <=? i) eqn:E0.
  - replace (i <? Z.of_nat n) with true by lia. reflexivity.
  - replace (- Z.of_nat n <=? i) with true by lia.
    replace (i <? 0) with true by lia. reflexivity.
Qed.

(** C7 (amended). For an index [arg] with [-len(vals) <= arg < len(vals)],
    which names the position [k = arg] counted from the front, or
    [k = len(vals) + arg] where [arg] is negative, [central_difference]
    calls [f] exactly twice: on [vals] with [epsilon] added at position
    [k], then on [vals] with [epsilon] subtracted at position [k], every
    other position as in [vals].  Where [2 * epsilon] is not zero it
    returns the difference of the two results divided by [2 * epsilon];
    where it is zero it raises [ZeroDivisionError] after the two calls.
    [epsilon] left out is [1e-6], [arg] left out is [0]. *)
Theorem central_difference_correct (f : list float -> float) (vals : list float)
    (arg : Z) (epsilon : float) :
  - Z.of_nat (length vals) <= arg < Z.of_nat (length vals) ->
  let k := Z.to_nat (if 0 <=? arg then arg else Z.of_nat (length vals) + arg) in
  exists (x : float) (plus minus : list float),
    vals !! k = Some x /\
    length plus = length vals /\ length minus = length vals /\
    plus !! k = Some (x + epsilon)%float /\
    minus !! k = Some (x - epsilon)%float /\
    (forall j : nat, j <> k -> plus !! j = vals !! j /\ minus !! j = vals !! j) /\
    calls_of (central_difference f vals (Some arg) (Some epsilon)) = [plus; minus] /\
    ((2 * epsilon =? 0)%float = false ->
     result_of (central_difference f vals (Some arg) (Some epsilon))
     = inr ((f plus - f minus) / (2 * epsilon))%float) /\
    ((2 * epsilon =? 0)%float = true ->
     result_of (central_difference f vals (Some arg) (Some epsilon))
     = inl ZeroDivisionError) /\
    central_difference f vals (Some arg) None
    = central_difference f vals (Some arg) (Some 1e-6%float) /\
    central_difference f vals None (Some epsilon)
    = central_difference f vals (Some 0) (Some epsilon).
Proof.
  intros Hr k.
  pose proof (list_index_in_range (length vals) arg Hr) as Hk. fold k in Hk.
  destruct (list_update_ok vals arg (fun y => y + epsilon)%float k Hk)
    as (y & Hy & Hplus).
  destruct (list_update_ok vals arg (fun y => y - epsilon)%float k Hk)
    as (y' & Hy' & Hminus).
  assert (y' = y) as -> by congruence.
  pose proof (list_index_lt _ _ _ Hk) as Hlt.
  exists y, (<[k := (y + epsilon)%float]> vals), (<[k := (y - epsilon)%float]> vals).
  split; [exact Hy|].
  split; [apply length_insert|]. split; [apply length_insert|].
  split; [now apply list_lookup_insert_eq|].
  split; [now apply list_lookup_insert_eq|].
  split; [intros j Hj; split; now apply list_lookup_insert_ne|].
  assert (Hrun : central_difference f vals (Some arg) (Some epsilon)
                 = ([<[k := (y + epsilon)%float]> vals;
                     <[k := (y - epsilon)%float]> vals],
                    if (2 * epsilon =? 0)%float then inl ZeroDivisionError
                    else inr ((f (<[k := (y + epsilon)%float]> vals)
                               - f (<[k := (y - epsilon)%float]> vals))
                              / (2 * epsilon))%float)).
  { unfold central_difference. simpl. rewrite Hplus, Hminus.
    unfold truediv. simpl.
    destruct (2 * epsilon =? 0)%float; reflexivity. }
  rewrite Hrun. simpl.
  split; [reflexivity|].
  split; [now intros ->|]. split; [now intros ->|].
  split; reflexivity.
Qed.

(** C7, as stated, fails for an index out of range, where nothing is
    returned and [f] is not called at all, and for [epsilon = 0], where
    [ZeroDivisionError] is raised after the two calls. *)
Lemma central_difference_raises :
  central_difference Examples.prod2 [3; 4]%float (Some 2) (Some 0.5%float)
  = ([], inl IndexError) /\
  central_difference Examples.prod2 [3; 4]%float (Some 1) (Some 0%float)
  = ([[3; 4]%float; [3; 4]%float], inl ZeroDivisionError).
Proof. split; vm_compute; reflexivity. Qed.

(** The defaults at work on [f(x) = x * x] at [3]. *)
Example central_difference_defaults :
  central_difference
    (fun l => match l with x :: _ => (x * x)%float | [] => 0%float end)
    [3%float] None None =
  ([[(3 + 1e-6)%float]; [(3 - 1e-6)%float]], inr 6.0000000008386678%float).
Proof. vm_compute. reflexivity. Qed.

End CentralDifferenceFacts.

Lemma central_difference_correct_witness :
  - Z.of_nat (length [3; 4]%float) <= -1 < Z.of_nat (length [3; 4]%float) /\
  CentralDifference.central_difference Examples.prod2 [3; 4]%float
    (Some (-1)) (Some 0.5%float)
  = ([[3; 4.5]%float; [3; 3.5]%float], inr 3%float).
Proof.
  assert (Hr : - Z.of_nat (length [3; 4]%float) <= -1
               < Z.of_nat (length [3; 4]%float)) by (simpl; lia).
  split; [exact Hr|].
  destruct (central_difference_correct Examples.prod2 [3; 4]%float (-1)
              0.5%float Hr)
    as (x & plus & minus & Hx & _ & _ & Hp & Hm & Hother & Hcalls & Hres & _).
  specialize (Hres eq_refl).
  destruct (CentralDifference.central_difference Examples.prod2 [3; 4]%float
              (Some (-1)) (Some 0.5%float)) as [cs res] eqn:Hrun.
  simpl in Hcalls, Hres. subst cs res.
  vm_compute in Hrun. injection Hrun as <- <-.
  vm_compute. reflexivity.
Defined.


(** ** The graph: structure *)

Section GraphFacts.
Import Autodiff.

(** Induction on a Variable with the property known of its inputs. *)
Fixpoint Var_parents_ind (P : Var -> Prop)
    (step : forall v, Forall P (parents v) -> P v) (v : Var) {struct v} : P v :=
  step v
    (match v as v0 return Forall P (parents v0) with
     | mkVar i hi lf cst cr =>
         match hi as hi0 return Forall P (parents (mkVar i hi0 lf cst cr)) with
         | None => List.Forall_nil P
         | Some h =>
             (fix go (l : list Var) : Forall P l :=
                match l return Forall P l with
                | [] => List.Forall_nil P
                | p :: l' => @List.Forall_cons _ P p l' (Var_parents_ind P step p) (go l')
                end) (inputs h)
         end
     end).

Lemma parents_Some (v : Var) (h : History Var) :
  history v = Some h -> parents v = inputs h.
Proof. unfold parents. now intros ->. Qed.

Lemma parents_None (v : Var) : history v = None -> parents v = [].
Proof. unfold parents. now intros ->. Qed.

Lemma nodes_eq (v : Var) : nodes v = v :: flat_map nodes (parents v).
Proof.
  destruct v as [i [h|] lf cst cr]; reflexivity.
Qed.

Lemma visit_eq (v : Var) (st : SortState) :
  visit v st =
  if bool_decide (unique_id v ∈ visited st) then st
  else match history v with
       | None => mkSortState ({[unique_id v]} ∪ visited st) (top_order st)
       | Some h =>
           let st2 := visit_all (inputs h)
                        (mkSortState ({[unique_id v]} ∪ visited st) (top_order st)) in
           mkSortState (visited st2) (top_order st2 ++ [v])
       end.
Proof.
  destruct v as [i [h|] lf cst cr]; simpl; [|reflexivity].
  destruct (bool_decide (i ∈ visited st)); [reflexivity|].
  generalize (mkSortState ({[i]} ∪ visited st) (top_order st)).
  unfold visit_all.
  induction (inputs h) as [|p l IH]; intros s; simpl; [reflexivity|].
  assert (Hp : (if bool_decide (unique_id p ∈ visited s) then s else visit p s)
               = visit p s).
  { destruct (bool_decide (unique_id p ∈ visited s)) eqn:E; [|reflexivity].
    destruct p as [j hj lfj cstj crj]; simpl in *. now rewrite E. }
  rewrite Hp. apply IH.
Qed.

Lemma reach_trans (a b c : Var) : reach a b -> reach b c -> reach a c.
Proof.
  induction 1 as [|v h p u Hh Hp _ IH]; [easy|].
  intros Hc. eapply reach_step; eauto.
Qed.

Lemma reach_parent (v p : Var) : In p (parents v) -> reach v p.
Proof.
  unfold parents. destruct (history v) as [h|] eqn:Hh; [|easy].
  intros Hp. eapply reach_step; eauto using reach_refl.
Qed.

Lemma reach_nodes (v u : Var) : reach v u <-> In u (nodes v).
Proof.
  split.
  - induction 1 as [v|v h p u Hh Hp _ IH]; rewrite nodes_eq.
    + now left.
    + right. apply in_flat_map. exists p.
      now rewrite (parents_Some _ _ Hh).
  - revert u. induction v as [v IH] using Var_parents_ind. intros u.
    rewrite nodes_eq. intros [<-|Hin]; [apply reach_refl|].
    apply in_flat_map in Hin as (p & Hp & Hu).
    rewrite Forall_forall in IH.
    apply (reach_trans _ p); [now apply reach_parent|].
    apply IH; [now apply list_elem_of_In|exact Hu].
Qed.

Lemma size_parent (v p : Var) : In p (parents v) -> (size p < size v)%nat.
Proof.
  unfold size. rewrite (nodes_eq v). simpl.
  induction (parents v) as [|q l IH]; [easy|].
  simpl. rewrite length_app. intros [->|Hin]; [lia|].
  specialize (IH Hin). lia.
Qed.

Lemma size_reach (v u : Var) : reach v u -> (size u <= size v)%nat.
Proof.
  induction 1 as [|v h p u Hh Hp _ IH]; [lia|].
  pose proof (size_parent v p) as Hs.
  rewrite (parents_Some _ _ Hh) in Hs. specialize (Hs Hp). lia.
Qed.

(** A graph has no cycle: no Variable is reached from one of its own inputs. *)
Lemma reach_acyclic (v p : Var) : In p (parents v) -> reach p v -> False.
Proof.
  intros Hp Hr. apply size_parent in Hp. apply size_reach in Hr. lia.
Qed.

Lemma reach_history (p u : Var) :
  reach p u -> history u <> None -> history p <> None.
Proof. intros [|v h q u' Hh _ _]; [easy|]. now rewrite Hh. Qed.

End GraphFacts.


(** ** The traversal *)

Section VisitFacts.
Import Autodiff.

Lemma visit_all_cons (p : Var) (l : list Var) (s : SortState) :
  visit_all (p :: l) s = visit_all l (visit p s).
Proof. reflexivity. Qed.

(** [visit] appends only Variables that have a History. *)
Lemma visit_preserves (I : Var -> Prop) :
  (forall w, history w <> None -> I w) ->
  forall v st, Forall I (top_order st) -> Forall I (top_order (visit v st)).
Proof.
  intros HI v. induction v as [v IH] using Var_parents_ind.
  intros st Hst. rewrite visit_eq.
  destruct (bool_decide (unique_id v ∈ visited st)); [exact Hst|].
  destruct (history v) as [h|] eqn:Hh; [|exact Hst].
  rewrite (parents_Some _ _ Hh) in IH. simpl.
  apply Forall_app. split.
  - set (st1 := mkSortState _ _).
    assert (Hst1 : Forall I (top_order st1)) by exact Hst.
    clearbody st1. revert st1 Hst1.
    induction IH as [|p l Hp _ IHl]; intros s Hs; [exact Hs|].
    rewrite visit_all_cons. apply IHl, Hp, Hs.
  - apply Forall_cons. split; [|apply List.Forall_nil].
    apply HI. now rewrite Hh.
Qed.

(** What [visit] appends does not depend on what the list held before. *)
Lemma visit_all_prefix_from (ps : list Var) :
  Forall (fun p => forall vis l,
            visit p (mkSortState vis l) =
            mkSortState (visited (visit p (mkSortState vis [])))
                        (l ++ top_order (visit p (mkSortState vis [])))) ps ->
  forall vis l,
    visit_all ps (mkSortState vis l) =
    mkSortState (visited (visit_all ps (mkSortState vis [])))
                (l ++ top_order (visit_all ps (mkSortState vis []))).
Proof.
  induction 1 as [|p ps Hp _ IH]; intros vis l.
  - simpl. now rewrite app_nil_r.
  - rewrite !visit_all_cons. rewrite (Hp vis l). rewrite IH.
    rewrite (Hp vis []). simpl. rewrite (IH _ (top_order _)).
    simpl. now rewrite app_assoc.
Qed.

Lemma visit_prefix (v : Var) :
  forall vis l,
    visit v (mkSortState vis l) =
    mkSortState (visited (visit v (mkSortState vis [])))
                (l ++ top_order (visit v (mkSortState vis []))).
Proof.
  induction v as [v IH] using Var_parents_ind. intros vis l.
  rewrite !visit_eq. simpl.
  destruct (bool_decide (unique_id v ∈ vis)).
  - simpl. now rewrite app_nil_r.
  - destruct (history v) as [h|] eqn:Hh.
    + rewrite (parents_Some _ _ Hh) in IH.
      rewrite (visit_all_prefix_from _ IH _ l). simpl.
      now rewrite app_assoc.
    + simpl. now rewrite app_nil_r.
Qed.

(** [topological_sort] is the reversed append order, the root put in front
    of the appends coming last. *)
Lemma topological_sort_eq (root : Var) :
  topological_sort root =
  rev (top_order (visit root (mkSortState ∅ []))) ++ [root].
Proof.
  unfold topological_sort. simpl. rewrite visit_prefix. reflexivity.
Qed.

Lemma post_sorted_snoc (l : list Var) (v : Var) :
  post_sorted l ->
  (forall p, In p (parents v) -> history p <> None -> In p l) ->
  post_sorted (l ++ [v]).
Proof.
  intros Hs Hv l1 w l2 p Heq Hp Hh.
  destruct l2 as [|z l2 _] using rev_ind.
  - apply app_inj_tail in Heq as [-> ->]. now apply Hv.
  - change (l ++ [v] = l1 ++ (w :: l2) ++ [z]) in Heq.
    rewrite app_assoc in Heq. apply app_inj_tail in Heq as [-> _].
    eapply Hs; eauto.
Qed.

Lemma NoDup_snoc (l : list Z) (x : Z) :
  NoDup l -> ~ In x l -> NoDup (l ++ [x]).
Proof.
  intros Hl Hx. apply NoDup_app. repeat split.
  - exact Hl.
  - intros y Hy Hy'. apply list_elem_of_In in Hy.
    apply list_elem_of_singleton in Hy'. now subst.
  - apply NoDup_singleton.
Qed.

Lemma sort_inv_visited (root : Var) (vis vis' : gset Z) (l : list Var) :
  vis ⊆ vis' -> sort_inv root (mkSortState vis l) -> sort_inv root (mkSortState vis' l).
Proof.
  intros Hsub (Hs & Hn & Hm). split; [exact Hs|]. split; [exact Hn|].
  simpl in *. intros w Hw. destruct (Hm w Hw) as (H1 & H2 & H3).
  split; [now apply Hsub|]. now split.
Qed.

Lemma visit_post_refl (root : Var) (R : Var -> Prop) (st : SortState) :
  sort_inv root st -> visit_post root R st st.
Proof.
  intros Hinv. split; [exact Hinv|]. split; [reflexivity|]. split.
  - exists []. split; [now rewrite app_nil_r|easy].
  - intros u _ Hin Hnin. now destruct Hnin.
Qed.

Lemma visit_post_trans (root : Var) (R R' R'' : Var -> Prop) (a b c : SortState) :
  (forall u, R u -> R'' u) -> (forall u, R' u -> R'' u) ->
  visit_post root R a b -> visit_post root R' b c -> visit_post root R'' a c.
Proof.
  intros HR HR' (Hib & Hsb & (n1 & Hn1 & Hn1R) & Hfb)
               (Hic & Hsc & (n2 & Hn2 & Hn2R) & Hfc).
  split; [exact Hic|]. split; [|split].
  - set_solver.
  - exists (n1 ++ n2). split.
    + now rewrite Hn2, Hn1, app_assoc.
    + intros u Hu. apply in_app_iff in Hu as [Hu|Hu]; auto.
  - intros u Hru Hin Hnin.
    destruct (decide (unique_id u ∈ visited b)) as [Hb|Hb].
    + destruct (Hfb u Hru Hb Hnin) as [Hn|Hn]; [now left|].
      right. rewrite Hn2. apply in_app_iff. now left.
    + now apply Hfc.
Qed.

End VisitFacts.

(** ** The traversal of a graph with unique ids *)

Section Dfs.
Import Autodiff.
Variable root : Var.
Hypothesis Huniq : unique_ids root.

(** Under a Variable no id is the Variable's own. *)
Lemma below_fresh (v u : Var) :
  reach root v -> below v u -> unique_id u <> unique_id v.
Proof.
  intros Hrv (p & Hp & Hpu) Heq.
  assert (u = v) as ->.
  { apply Huniq; [|exact Hrv|exact Heq].
    apply (reach_trans _ v); [exact Hrv|].
    apply (reach_trans _ p); [now apply reach_parent|exact Hpu]. }
  exact (reach_acyclic v p Hp Hpu).
Qed.

Lemma below_reach (v u : Var) : below v u -> reach v u.
Proof.
  intros (p & Hp & Hpu). apply (reach_trans _ p); [now apply reach_parent|exact Hpu].
Qed.

(** The loop over the inputs of [v], every input obeying the contract of
    [visit]. *)
Lemma visit_all_spec (v : Var) (st : SortState) :
  reach root v ->
  unique_id v ∉ visited st ->
  (forall u, reach v u -> finished st u) ->
  let st1 := mkSortState ({[unique_id v]} ∪ visited st) (top_order st) in
  forall l,
    (forall p, In p l -> In p (parents v)) ->
    Forall (fun p => reach root p -> forall s, sort_inv root s ->
              (forall u, reach p u -> finished s u) ->
              visit_post root (reach p) s (visit p s) /\
              unique_id p ∈ visited (visit p s)) l ->
    forall s, visit_post root (below v) st1 s ->
      visit_post root (below v) s (visit_all l s) /\
      forall p, In p l -> unique_id p ∈ visited (visit_all l s).
Proof.
  intros Hrv Hv Hpre st1 l.
  induction l as [|p l IHl]; intros Hsub HP s Hs.
  - split; [|easy]. apply visit_post_refl. apply Hs.
  - rewrite visit_all_cons.
    assert (Hp : In p (parents v)) by (apply Hsub; now left).
    assert (Hrp : reach root p).
    { apply (reach_trans _ v); [exact Hrv|now apply reach_parent]. }
    apply Forall_cons in HP as [HPp HPl].
    destruct Hs as (Hinv & Hsubs & (new & Hnew & HnewR) & Hfresh).
    destruct (HPp Hrp s Hinv) as [Hpost Hvis].
    { intros u Hpu Hin.
      assert (Hru : reach root u) by (eapply reach_trans; eauto).
      destruct (decide (unique_id u ∈ visited st1)) as [H1|H1].
      - simpl in H1. apply elem_of_union in H1 as [H1|H1].
        + apply elem_of_singleton in H1.
          exfalso. eapply (below_fresh v u); eauto. now exists p.
        + destruct (Hpre u) as [Hn|Hn]; [|exact H1|now left|].
          * apply (reach_trans _ p); [now apply reach_parent|exact Hpu].
          * right. rewrite Hnew. apply in_app_iff. now left.
      - now apply Hfresh. }
    assert (Hs' : visit_post root (below v) st1 (visit p s)).
    { apply (visit_post_trans root (below v) (reach p) (below v) st1 s).
      - easy.
      - intros u Hu. now exists p.
      - split; [exact Hinv|]. split; [exact Hsubs|]. split; [|exact Hfresh].
        now exists new.
      - exact Hpost. }
    destruct (IHl (fun q Hq => Hsub q (or_intror Hq)) HPl _ Hs') as [Hl Hlv].
    split.
    + apply (visit_post_trans root (reach p) (below v) (below v) s (visit p s)).
      * intros u Hu. now exists p.
      * easy.
      * exact Hpost.
      * exact Hl.
    + intros q [<-|Hq]; [|now apply Hlv].
      destruct Hl as (_ & Hsub' & _). now apply Hsub'.
Qed.

(** The contract of [visit]: called where nothing under [v] is half done,
    it keeps the invariant, appends only Variables under [v], and leaves
    every Variable it marks done with. *)
Lemma visit_spec (v : Var) :
  reach root v ->
  forall st, sort_inv root st ->
    (forall u, reach v u -> finished st u) ->
    visit_post root (reach v) st (visit v st) /\
    unique_id v ∈ visited (visit v st).
Proof.
  induction v as [v IH] using Var_parents_ind.
  intros Hrv st Hinv Hpre. rewrite visit_eq.
  destruct (bool_decide_reflect (unique_id v ∈ visited st)) as [Hv|Hv].
  { split; [now apply visit_post_refl|exact Hv]. }
  destruct (history v) as [h|] eqn:Hh.
  - simpl.
    set (st1 := mkSortState ({[unique_id v]} ∪ visited st) (top_order st)).
    assert (Hinv1 : sort_inv root st1).
    { apply (sort_inv_visited root (visited st)); [set_solver|].
      now destruct st. }
    destruct (visit_all_spec v st Hrv Hv Hpre (parents v) (fun p Hp => Hp) IH st1
                (visit_post_refl root _ st1 Hinv1)) as [Hpost Hall].
    rewrite (parents_Some _ _ Hh) in Hpost, Hall.
    set (s2 := visit_all (inputs h) st1) in *.
    destruct Hpost as (Hinv2 & Hsub2 & (new & Hnew & HnewR) & Hfresh2).
    destruct Hinv2 as (Hsorted2 & Hnodup2 & Hmem2).
    simpl in Hnew.
    assert (Hpar : forall p, In p (parents v) -> history p <> None ->
                             In p (top_order s2)).
    { intros p Hp Hhp.
      assert (Hrp : reach root p).
      { apply (reach_trans _ v); [exact Hrv|now apply reach_parent]. }
      rewrite (parents_Some _ _ Hh) in Hp. pose proof (Hall p Hp) as Hin.
      rewrite <- (parents_Some _ _ Hh) in Hp.
      destruct (decide (unique_id p ∈ visited st1)) as [H1|H1].
      - simpl in H1. apply elem_of_union in H1 as [H1|H1].
        + apply elem_of_singleton in H1.
          exfalso. apply (below_fresh v p Hrv); [|exact H1].
          exists p. split; [exact Hp|apply reach_refl].
        + destruct (Hpre p (reach_parent _ _ Hp) H1) as [Hn|Hn]; [easy|].
          rewrite Hnew. apply in_app_iff. now left.
      - destruct (Hfresh2 p Hrp Hin H1) as [Hn|Hn]; [easy|exact Hn]. }
    assert (Hvnew : ~ In (unique_id v) (map unique_id (top_order s2))).
    { intros Hin. apply in_map_iff in Hin as (w & Hw & Hin).
      rewrite Hnew in Hin. apply in_app_iff in Hin as [Hin|Hin].
      - destruct Hinv as (_ & _ & Hmem). destruct (Hmem w Hin) as (Hwv & _).
        rewrite Hw in Hwv. contradiction.
      - apply (below_fresh v w Hrv); [now apply HnewR|exact Hw]. }
    split; [|apply Hsub2; simpl; set_solver].
    split; [|split; [|split]].
    + split; [|split]; simpl.
      * now apply post_sorted_snoc.
      * rewrite map_app. simpl. now apply NoDup_snoc.
      * intros w Hw. apply in_app_iff in Hw as [Hw|[<-|[]]].
        -- now apply Hmem2.
        -- split; [apply Hsub2; simpl; set_solver|]. split; [now rewrite Hh|exact Hrv].
    + simpl. etransitivity; [|exact Hsub2]. simpl. set_solver.
    + exists (new ++ [v]). simpl. split.
      * now rewrite Hnew, app_assoc.
      * intros u Hu. apply in_app_iff in Hu as [Hu|[<-|[]]].
        -- apply below_reach. now apply HnewR.
        -- apply reach_refl.
    + simpl. intros u Hru Hin Hnin.
      destruct (decide (unique_id u = unique_id v)) as [He|He].
      * right. apply in_app_iff. right. left. symmetry. now apply Huniq.
      * destruct (Hfresh2 u Hru Hin) as [Hn|Hn].
        -- simpl. set_solver.
        -- now left.
        -- right. apply in_app_iff. now left.
  - split; [|simpl; set_solver].
    split; [|split; [|split]].
    + apply (sort_inv_visited root (visited st)); [set_solver|]. now destruct st.
    + simpl. set_solver.
    + exists []. simpl. split; [now rewrite app_nil_r|easy].
    + simpl. intros u Hru Hin Hnin. left.
      assert (unique_id u = unique_id v) as He by set_solver.
      apply Huniq in He; [|exact Hru|exact Hrv]. now subst.
Qed.

End Dfs.


(** ** The order returned for a graph with unique ids *)

Section OrderFacts.
Import Autodiff.
Variable root : Var.
Hypothesis Huniq : unique_ids root.

Let post : list Var := top_order (visit root (mkSortState ∅ [])).

Lemma post_inv : sort_inv root (visit root (mkSortState ∅ [])).
Proof.
  apply (visit_spec root Huniq root (reach_refl root)).
  - split; [|split]; simpl.
    + intros l1 w l2 p Heq. now destruct l1.
    + apply NoDup_nil_2.
    + easy.
  - intros u _ Hin. simpl in Hin. set_solver.
Qed.

Lemma post_members (u : Var) : In u post -> history u <> None /\ reach root u.
Proof. intros Hu. destruct post_inv as (_ & _ & Hm). now apply Hm. Qed.

Lemma post_root : history root <> None -> In root post.
Proof.
  intros Hh.
  destruct (visit_spec root Huniq root (reach_refl root) (mkSortState ∅ []))
    as [(_ & _ & _ & Hfresh) Hvis].
  - split; [|split]; simpl.
    + intros l1 w l2 p Heq. now destruct l1.
    + apply NoDup_nil_2.
    + easy.
  - intros u _ Hin. simpl in Hin. set_solver.
  - destruct (Hfresh root (reach_refl root) Hvis) as [Hn|Hn]; [simpl; set_solver|easy|exact Hn].
Qed.

Lemma post_closed (v u : Var) :
  reach v u -> In v post -> history u <> None -> In u post.
Proof.
  induction 1 as [v|v h p u Hh Hp Hpu IH]; intros Hv Hu; [exact Hv|].
  apply IH; [|exact Hu].
  destruct post_inv as (Hs & _ & _).
  apply in_split in Hv as (l1 & l2 & Hv).
  assert (In p l1) as Hin.
  { apply (Hs l1 v l2 p Hv).
    - now rewrite (parents_Some _ _ Hh).
    - eapply reach_history; eauto. }
  fold post. rewrite Hv. apply in_app_iff. now left.
Qed.

(** Every Variable of the graph that has a History is appended. *)
Lemma post_complete (u : Var) : reach root u -> history u <> None -> In u post.
Proof.
  intros Hr Hu. apply (post_closed root u Hr); [|exact Hu].
  apply post_root. eapply reach_history; eauto.
Qed.

Lemma rev_post_sorted : rev_sorted (rev post).
Proof.
  destruct post_inv as (Hs & _ & _).
  intros l1 w l2 p Heq Hp Hh.
  apply in_rev. apply (Hs (rev l2) w (rev l1) p); [|exact Hp|exact Hh].
  fold post. rewrite <- (rev_involutive post), Heq, rev_app_distr. simpl.
  now rewrite <- app_assoc.
Qed.

Lemma rev_post_nodup : NoDup (map unique_id (rev post)).
Proof.
  destruct post_inv as (_ & Hn & _).
  rewrite map_rev. now apply NoDup_ListNoDup, List.NoDup_rev, NoDup_ListNoDup.
Qed.

End OrderFacts.

Section OrderShape.
Import Autodiff.

(** A root with a History is the last Variable appended. *)
Lemma post_last (root : Var) (h : History Var) :
  history root = Some h ->
  exists post', top_order (visit root (mkSortState ∅ [])) = post' ++ [root].
Proof.
  intros Hh. rewrite visit_eq. simpl.
  rewrite bool_decide_eq_false_2 by set_solver.
  rewrite Hh. simpl. eauto.
Qed.

Lemma post_none (root : Var) :
  history root = None -> top_order (visit root (mkSortState ∅ [])) = [].
Proof.
  intros Hh. rewrite visit_eq. simpl.
  rewrite bool_decide_eq_false_2 by set_solver.
  now rewrite Hh.
Qed.

Lemma topological_sort_head (root : Var) :
  exists l, topological_sort root = root :: l.
Proof.
  rewrite topological_sort_eq.
  destruct (history root) as [h|] eqn:Hh.
  - destruct (post_last root h Hh) as (post' & ->).
    rewrite rev_app_distr. simpl. eauto.
  - rewrite (post_none root Hh). simpl. eauto.
Qed.

Lemma occurrences_app (i : Z) (l1 l2 : list Var) :
  occurrences i (l1 ++ l2) = (occurrences i l1 + occurrences i l2)%nat.
Proof. unfold occurrences. now rewrite filter_app, length_app. Qed.

Lemma occurrences_cons (i : Z) (w : Var) (l : list Var) :
  occurrences i (w :: l) =
  ((if bool_decide (unique_id w = i) then 1 else 0) + occurrences i l)%nat.
Proof.
  unfold occurrences. rewrite filter_cons.
  case_bool_decide; destruct (decide (unique_id w = i)); try contradiction; reflexivity.
Qed.

Lemma occurrences_absent (i : Z) (l : list Var) :
  ~ In i (map unique_id l) -> occurrences i l = 0%nat.
Proof.
  induction l as [|w l IH]; [reflexivity|].
  simpl. intros Hn. rewrite occurrences_cons.
  rewrite bool_decide_eq_false_2 by tauto.
  apply IH. tauto.
Qed.

Lemma occurrences_nodup (u : Var) (l : list Var) :
  NoDup (map unique_id l) -> In u l -> occurrences (unique_id u) l = 1%nat.
Proof.
  induction l as [|w l IH]; [easy|].
  simpl. intros Hn Hin. apply NoDup_cons in Hn as [Hw Hn].
  rewrite occurrences_cons.
  destruct Hin as [->|Hin].
  - rewrite bool_decide_eq_true_2 by reflexivity.
    rewrite occurrences_absent; [reflexivity|].
    intros Hc. apply Hw. now apply list_elem_of_In.
  - rewrite bool_decide_eq_false_2.
    + now apply IH.
    + intros He. apply Hw. apply list_elem_of_In. rewrite He. now apply in_map.
Qed.

End OrderShape.

(** ** The loop of backpropagate *)

Section LoopFacts.
Import Autodiff.

Lemma sum_list_app (l1 l2 : list Z) :
  sum_list (l1 ++ l2) = sum_list l1 + sum_list l2.
Proof. unfold sum_list. induction l1 as [|a l1 IH]; simpl; lia. Qed.

Lemma contrib_cons (i : Z) (pg : Var * Z) (cs : list (Var * Z)) :
  contrib i (pg :: cs) =
  (if bool_decide (unique_id (fst pg) = i) then snd pg else 0) + contrib i cs.
Proof. reflexivity. Qed.

Lemma grad_of_add_grad (cur : gmap Z Z) (pg : Var * Z) (i : Z) :
  grad_of (add_grad cur pg) i =
  grad_of cur i + (if bool_decide (unique_id (fst pg) = i) then snd pg else 0).
Proof.
  unfold add_grad, grad_of.
  destruct (cur !! unique_id (fst pg)) as [g|] eqn:Hg;
    case_bool_decide as He.
  - subst i. rewrite lookup_insert_eq, Hg. reflexivity.
  - rewrite lookup_insert_ne by exact He. lia.
  - subst i. rewrite lookup_insert_eq, Hg. reflexivity.
  - rewrite lookup_insert_ne by exact He. lia.
Qed.

Lemma grad_of_fold (cs : list (Var * Z)) :
  forall (cur : gmap Z Z) (i : Z),
    grad_of (fold_left add_grad cs cur) i = grad_of cur i + contrib i cs.
Proof.
  induction cs as [|pg cs IH]; intros cur i; simpl.
  - unfold contrib. simpl. lia.
  - rewrite IH, grad_of_add_grad, contrib_cons. lia.
Qed.

Lemma backprop_step_calls (st : BackState) (node : Var) :
  calls (backprop_step st node) =
  calls st ++ [call_on node (grad_of (cur_derivs st) (unique_id node))].
Proof.
  unfold backprop_step, call_on, grad_of.
  destruct (cur_derivs st !! unique_id node) as [g|]; simpl;
    destruct (is_leaf node); reflexivity.
Qed.

Lemma backprop_step_grads (st : BackState) (node : Var) (i : Z) :
  grad_of (cur_derivs (backprop_step st node)) i =
  next_grads node (grad_of (cur_derivs st)) i.
Proof.
  unfold backprop_step, next_grads.
  assert (Hzero : forall j, grad_of (<[unique_id node := 0]> (cur_derivs st)) j
                            = grad_of (cur_derivs st) j
                    \/ is_Some (cur_derivs st !! unique_id node)).
  { intros j. destruct (cur_derivs st !! unique_id node) as [g|] eqn:Hg; [right; eauto|].
    left. unfold grad_of. destruct (decide (unique_id node = j)) as [<-|Hne].
    - now rewrite lookup_insert_eq, Hg.
    - now rewrite lookup_insert_ne. }
  destruct (cur_derivs st !! unique_id node) as [g|] eqn:Hg.
  - destruct (is_leaf node); simpl; [reflexivity|].
    rewrite grad_of_fold. unfold grad_of at 3. now rewrite Hg.
  - destruct (is_leaf node); simpl.
    + destruct (Hzero i) as [H|[? H]]; [exact H|discriminate].
    + rewrite grad_of_fold. unfold grad_of at 3. rewrite Hg. simpl.
      destruct (Hzero i) as [H|[? H]]; [now rewrite H|discriminate].
Qed.

Lemma next_grads_ext (node : Var) (g g' : Z -> Z) :
  (forall i, g i = g' i) -> forall i, next_grads node g i = next_grads node g' i.
Proof.
  intros Hg i. unfold next_grads. destruct (is_leaf node); [apply Hg|].
  now rewrite !Hg.
Qed.

Lemma loop_calls_ext (l : list Var) :
  forall g g', (forall i, g i = g' i) -> loop_calls l g = loop_calls l g'.
Proof.
  induction l as [|node l IH]; intros g g' Hg; simpl; [reflexivity|].
  rewrite (Hg (unique_id node)). f_equal.
  apply IH. now apply next_grads_ext.
Qed.

(** The calls of the loop are those of [loop_calls] on the dictionary read
    as a function. *)
Lemma backprop_loop_calls (l : list Var) :
  forall st, calls (fold_left backprop_step l st) =
             calls st ++ loop_calls l (grad_of (cur_derivs st)).
Proof.
  induction l as [|node l IH]; intros st; simpl.
  - now rewrite app_nil_r.
  - rewrite IH, backprop_step_calls, <- app_assoc. simpl. do 2 f_equal.
    apply loop_calls_ext. intros i. apply backprop_step_grads.
Qed.

Lemma backpropagate_calls (root : Var) (deriv : Z) :
  calls (backpropagate root deriv) =
  loop_calls (topological_sort root) (grad_of {[unique_id root := deriv]}).
Proof. unfold backpropagate. now rewrite backprop_loop_calls. Qed.

Lemma loop_calls_targets (l : list Var) :
  forall g, map call_target (loop_calls l g) = l.
Proof.
  induction l as [|node l IH]; intros g; simpl; [reflexivity|].
  rewrite IH. f_equal. unfold call_on. now destruct (is_leaf node).
Qed.

Lemma loop_calls_app (l1 l2 : list Var) :
  forall g, loop_calls (l1 ++ l2) g =
            loop_calls l1 g ++ loop_calls l2 (loop_grads l1 g).
Proof.
  induction l1 as [|node l1 IH]; intros g; simpl; [reflexivity|].
  now rewrite IH.
Qed.

Lemma accumulated_app (i : Z) (c1 c2 : list Call) :
  accumulated i (c1 ++ c2) = accumulated i c1 ++ accumulated i c2.
Proof. unfold accumulated. apply flat_map_app. Qed.

End LoopFacts.


(** ** topological_sort *)

Section TopologicalSort.
Import Autodiff.

Lemma in_topological_sort (root u : Var) :
  In u (topological_sort root) <->
  In u (top_order (visit root (mkSortState ∅ []))) \/ u = root.
Proof.
  rewrite topological_sort_eq, in_app_iff, <- in_rev. simpl.
  intuition congruence.
Qed.

(** What the sequence holds, for a graph with unique ids. *)
Lemma topological_sort_members (root : Var) :
  unique_ids root ->
  forall u, In u (topological_sort root) <->
            reach root u /\ (history u <> None \/ u = root).
Proof.
  intros Huniq u. rewrite in_topological_sort. split.
  - intros [Hu| ->].
    + destruct (post_members root Huniq u Hu). auto.
    + split; [apply reach_refl|now right].
  - intros [Hr [Hh| ->]]; [|now right].
    left. now apply post_complete.
Qed.

(** C1 (amended). In a graph with unique ids the sequence holds the root
    and exactly the Variables of the graph that have a History; a Variable
    other than the root occurs in it at most once, so a Variable with a
    History is there exactly once however many paths lead to it, and a
    Variable without History that is not the root is absent. *)
Theorem topological_sort_contents (root : Var) :
  unique_ids root ->
  In root (topological_sort root) /\
  (forall u, In u (topological_sort root) <->
             reach root u /\ (history u <> None \/ u = root)) /\
  (forall u, In u (topological_sort root) -> u <> root ->
             occurrences (unique_id u) (topological_sort root) = 1%nat).
Proof.
  intros Huniq. split; [|split].
  - apply in_topological_sort. now right.
  - now apply topological_sort_members.
  - intros u Hu Hne. apply in_topological_sort in Hu as [Hu|Hu]; [|contradiction].
    rewrite topological_sort_eq, occurrences_app, occurrences_cons.
    rewrite bool_decide_eq_false_2.
    + rewrite (occurrences_nodup u); [reflexivity| |now apply in_rev in Hu].
      now apply rev_post_nodup.
    + intros He. apply Hne. symmetry. apply Huniq; [apply reach_refl| |exact He].
      now apply (post_members root Huniq).
Qed.

Lemma NoDup_ids_split (a b : list Var) (u p : Var) :
  NoDup (map unique_id (a ++ u :: b)) -> In p b -> ~ In p a /\ ~ In u a /\ p <> u.
Proof.
  rewrite map_app. simpl. intros Hn Hp.
  apply NoDup_app in Hn as (_ & Hdis & Hub).
  apply NoDup_cons in Hub as [Hu _].
  split; [|split].
  - intros Hpa. apply (Hdis (unique_id p)).
    + apply list_elem_of_In. now apply in_map.
    + apply list_elem_of_In. right. now apply in_map.
  - intros Hua. apply (Hdis (unique_id u)).
    + apply list_elem_of_In. now apply in_map.
    + apply list_elem_of_In. now left.
  - intros ->. apply Hu. apply list_elem_of_In. now apply in_map.
Qed.

(** C4 (amended). In a graph with unique ids the root is first, and for
    every edge whose parent has a History the parent occurs after the first
    occurrence of the child and nowhere before it. *)
Theorem topological_sort_order (root : Var) :
  unique_ids root ->
  hd_error (topological_sort root) = Some root /\
  forall u p, reach root u -> In p (parents u) -> history p <> None ->
    exists l1 l2, topological_sort root = l1 ++ u :: l2 /\
                  In p l2 /\ ~ In p l1 /\ ~ In u l1.
Proof.
  intros Huniq. split.
  - destruct (topological_sort_head root) as [l ->]. reflexivity.
  - intros u p Hru Hp Hhp.
    assert (Hhu : history u <> None).
    { unfold parents in Hp. now destruct (history u). }
    pose proof (post_complete root Huniq u Hru Hhu) as Hu.
    apply in_rev in Hu. apply in_split in Hu as (a & b & Hab).
    pose proof (rev_post_sorted root Huniq a u b p Hab Hp Hhp) as Hpb.
    pose proof (rev_post_nodup root Huniq) as Hn. rewrite Hab in Hn.
    destruct (NoDup_ids_split a b u p Hn Hpb) as (Hpa & Hua & _).
    exists a, (b ++ [root]). split; [|split; [|split]].
    + rewrite topological_sort_eq, Hab, <- app_assoc. reflexivity.
    + apply in_app_iff. now left.
    + exact Hpa.
    + exact Hua.
Qed.

End TopologicalSort.

(** ** backpropagate: which calls are made *)

Section BackpropagateCalls.
Import Autodiff.

Lemma loop_calls_shape (l : list Var) :
  forall g c, In c (loop_calls l g) -> exists x, c = call_on (call_target c) x.
Proof.
  induction l as [|node l IH]; intros g c; simpl; [easy|].
  intros [<-|Hc]; [|now apply (IH (next_grads node g) c)].
  exists (g (unique_id node)). unfold call_on.
  destruct (is_leaf node) eqn:E; simpl; now rewrite E.
Qed.

(** C5 (amended). A Variable without History that is not the root never
    occurs in the sequence and is never the target of a [chain_rule] or
    [accumulate_derivative] call, wherever it sits in the graph. *)
Theorem no_history_pruned (root : Var) (deriv : Z) :
  (forall u, In u (topological_sort root) -> history u <> None \/ u = root) /\
  (forall c, In c (calls (backpropagate root deriv)) ->
             history (call_target c) <> None \/ call_target c = root).
Proof.
  assert (Hsort : forall u, In u (topological_sort root) ->
                            history u <> None \/ u = root).
  { intros u Hu. unfold topological_sort in Hu. apply in_rev in Hu.
    pose proof (visit_preserves (fun w => history w <> None \/ w = root)
                  (fun w Hw => or_introl Hw) root (mkSortState ∅ [root])) as HF.
    assert (H0 : Forall (fun w => history w <> None \/ w = root)
                   (top_order (mkSortState ∅ [root]))).
    { simpl. apply Forall_cons. split; [now right|apply List.Forall_nil]. }
    specialize (HF H0). rewrite List.Forall_forall in HF. now apply HF. }
  split; [exact Hsort|].
  intros c Hc. apply Hsort.
  rewrite <- (loop_calls_targets (topological_sort root)
                (grad_of {[unique_id root := deriv]})).
  rewrite <- backpropagate_calls. now apply in_map.
Qed.

(** C10. [backpropagate] makes one call per element of the sequence of
    [topological_sort], on that element and in that order, and nothing
    else: [accumulate_derivative] only on Variables whose [is_leaf()] is
    true, [chain_rule] only on the others. *)
Theorem backpropagate_effects (root : Var) (deriv : Z) :
  map call_target (calls (backpropagate root deriv)) = topological_sort root /\
  (forall v x, In (accumulate_derivative v x) (calls (backpropagate root deriv)) ->
               is_leaf v = true /\ In v (topological_sort root)) /\
  (forall v d, In (chain_rule_call v d) (calls (backpropagate root deriv)) ->
               is_leaf v = false /\ In v (topological_sort root)).
Proof.
  assert (Ht : map call_target (calls (backpropagate root deriv))
               = topological_sort root).
  { rewrite backpropagate_calls. apply loop_calls_targets. }
  split; [exact Ht|]. split.
  - intros v x Hin. split.
    + rewrite backpropagate_calls in Hin.
      apply loop_calls_shape in Hin as [y Hy]. simpl in Hy.
      unfold call_on in Hy. now destruct (is_leaf v).
    + rewrite <- Ht. now apply (in_map call_target) in Hin.
  - intros v d Hin. split.
    + rewrite backpropagate_calls in Hin.
      apply loop_calls_shape in Hin as [y Hy]. simpl in Hy.
      unfold call_on in Hy. now destruct (is_leaf v).
    + rewrite <- Ht. now apply (in_map call_target) in Hin.
Qed.

End BackpropagateCalls.

(** ** The example graphs *)

Section ExampleFacts.
Import Autodiff Examples.

Ltac solve_unique_ids :=
  intros u w Hu Hw He;
  apply reach_nodes in Hu; apply reach_nodes in Hw;
  simpl in Hu, Hw;
  repeat match goal with
         | H : _ \/ _ |- _ => destruct H as [H|H]
         | H : False |- _ => destruct H
         end;
  subst; try reflexivity; discriminate He.

Lemma over_bare_unique_ids : unique_ids over_bare.
Proof. solve_unique_ids. Qed.

Lemma chain_y_unique_ids : unique_ids chain_y.
Proof. solve_unique_ids. Qed.

Lemma diamond_unique_ids : unique_ids diamond_d.
Proof. solve_unique_ids. Qed.

Lemma bare_diamond_unique_ids : unique_ids bare_diamond_d.
Proof. solve_unique_ids. Qed.

Lemma diamond_reach_x : reach diamond_d diamond_x.
Proof. apply reach_nodes. simpl. tauto. Qed.

(** C1, as stated, fails on [y = f(x)] with [x] a leaf without History:
    the sequence is [y; y], so [x] is missing. *)
Lemma topological_sort_misses_bare_leaf :
  unique_ids over_bare /\
  map unique_id (topological_sort over_bare) = [1; 1] /\
  ~ (forall u, reach over_bare u -> is_constant u = false ->
               occurrences (unique_id u) (topological_sort over_bare) = 1%nat).
Proof.
  split; [exact over_bare_unique_ids|]. split; [reflexivity|].
  intros H. specialize (H bare_x). 
  assert (Hr : reach over_bare bare_x) by (apply reach_parent; now left).
  specialize (H Hr eq_refl). vm_compute in H. discriminate H.
Qed.

(** C4, as stated, fails on the same graph: the parent [x] of the edge from
    [y] stands nowhere in the sequence. *)
Lemma topological_sort_edge_to_bare_leaf :
  ~ (forall u p, reach over_bare u -> In p (parents u) ->
       exists l1 l2, topological_sort over_bare = l1 ++ u :: l2 /\ In p l2).
Proof.
  intros H.
  destruct (H over_bare bare_x (reach_refl _) (or_introl eq_refl))
    as (l1 & l2 & Heq & Hin).
  assert (Hx : In bare_x (topological_sort over_bare)).
  { rewrite Heq. apply in_app_iff. right. now right. }
  apply (in_map unique_id) in Hx. vm_compute in Hx.
  destruct Hx as [Hx|[Hx|[]]]; discriminate Hx.
Qed.

(** C5, as stated, fails where a Variable whose [is_constant()] is true has
    a History: it is in the sequence and its [chain_rule] is called.  And a
    constant without History, though never appended, is passed to [visit]
    and marked as visited. *)
Lemma constant_with_history_traversed :
  is_constant const_c = true /\
  In const_c (topological_sort over_const) /\
  chain_rule_calls (unique_id const_c) (calls (backpropagate over_const 1)) = [2] /\
  is_constant bare_const = true /\
  unique_id bare_const
    ∈ visited (visit over_bare_const (mkSortState ∅ [over_bare_const])).
Proof.
  split; [reflexivity|]. split; [right; now left|]. split; [reflexivity|].
  split; [reflexivity|].
  apply (bool_decide_unpack _). vm_compute. exact I.
Qed.

(** C3: on [y = f(x)], [backpropagate(y, 1)] calls the [chain_rule] of the
    root [y] twice. *)
Theorem root_chain_rule_called_twice :
  unique_ids chain_y /\
  is_leaf chain_y = false /\
  map unique_id (topological_sort chain_y) = [1; 2; 1] /\
  chain_rule_calls (unique_id chain_y) (calls (backpropagate chain_y 1)) = [1; 1].
Proof. split; [exact chain_y_unique_ids|]. repeat split. Qed.

(** The scenarios of a root that is a leaf: without History it is
    accumulated once, with a History twice. *)
Example bare_leaf_root :
  calls (backpropagate (bare_leaf 7) 3) = [accumulate_derivative (bare_leaf 7) 3].
Proof. reflexivity. Qed.

Example leaf_root_accumulated_twice :
  accumulated 2 (calls (backpropagate chain_x 3)) = [3; 3].
Proof. reflexivity. Qed.

(** On the diamond the two paths to [x] bring [5 * 2] and [7 * 3]. *)
Example diamond_total_derivative :
  path_grads 4 diamond_d 1 = [1 * 5 * 2; 1 * 7 * 3] /\
  total_derivative diamond_d 1 4 = 5 * 2 + 7 * 3.
Proof. split; reflexivity. Qed.

(** The linear chain [y = x + 1; z = y * 2]: the derivative [2] reaches [x]. *)
Example linear_chain :
  accumulated 3
    (calls (backpropagate (derived 1 [derived 2 [leaf 3] [1]] [2]) 1)) = [2].
Proof. reflexivity. Qed.

End ExampleFacts.

Lemma topological_sort_contents_witness :
  Autodiff.unique_ids Examples.diamond_d /\
  Autodiff.occurrences 4 (Autodiff.topological_sort Examples.diamond_d) = 1%nat.
Proof.
  split; [exact diamond_unique_ids|].
  apply (proj2 (proj2 (topological_sort_contents Examples.diamond_d
                         diamond_unique_ids)) Examples.diamond_x).
  - vm_compute. tauto.
  - discriminate.
Defined.

Lemma topological_sort_order_witness :
  Autodiff.unique_ids Examples.diamond_d /\
  hd_error (Autodiff.topological_sort Examples.diamond_d) = Some Examples.diamond_d /\
  exists l1 l2,
    Autodiff.topological_sort Examples.diamond_d = l1 ++ Examples.diamond_b :: l2 /\
    In Examples.diamond_x l2.
Proof.
  split; [exact diamond_unique_ids|].
  destruct (topological_sort_order Examples.diamond_d diamond_unique_ids)
    as [Hhd Hedge].
  split; [exact Hhd|].
  destruct (Hedge Examples.diamond_b Examples.diamond_x) as (l1 & l2 & Heq & Hin & _).
  - apply reach_parent. now left.
  - now left.
  - discriminate.
  - exists l1, l2. now split.
Defined.


(** ** backpropagate: the value that reaches a Variable *)

Section PathGrads.
Import Autodiff.

Lemma path_grads_eq (x : Z) (v : Var) (d : Z) :
  path_grads x v d =
  if bool_decide (unique_id v = x) then [d]
  else if is_leaf v then []
  else flat_map (fun pg => path_grads x (fst pg) (snd pg))
                (combine (parents v) (map snd (chain_rule v d))).
Proof.
  destruct v as [i [h|] lf cst cr]; simpl;
    destruct (bool_decide (i = x)); try reflexivity;
    destruct lf; try reflexivity.
  unfold parents. simpl.
  generalize (map snd (cr d)).
  induction (inputs h) as [|p ps IH]; intros gs; [reflexivity|].
  destruct gs as [|g gs]; [reflexivity|]. simpl. now rewrite IH.
Qed.

Lemma sum_list_flat_map {A : Type} (f : A -> list Z) (l : list A) :
  sum_list (flat_map f l) = sum_list (map (fun a => sum_list (f a)) l).
Proof.
  induction l as [|a l IH]; [reflexivity|].
  simpl. rewrite sum_list_app, IH. reflexivity.
Qed.

Lemma map_snd_combine {A B : Type} (l : list A) :
  forall l' : list B, length l' = length l -> map snd (combine l l') = l'.
Proof.
  induction l as [|a l IH]; intros [|b l'] Hlen; try discriminate; [reflexivity|].
  simpl. f_equal. apply IH. now injection Hlen.
Qed.

Lemma map_fst_combine {A B : Type} (l : list A) :
  forall l' : list B, length l' = length l -> map fst (combine l l') = l.
Proof.
  induction l as [|a l IH]; intros [|b l'] Hlen; try discriminate; [reflexivity|].
  simpl. f_equal. apply IH. now injection Hlen.
Qed.

End PathGrads.

Section Potential.
Import Autodiff.
Variable root : Var.
Hypothesis Huniq : unique_ids root.
Hypothesis Hlocal : local_chain_rules root.

(** The target: a Variable of the graph that has a History. *)
Variable xv : Var.
Hypothesis Hxv : reach root xv.
Hypothesis Hxh : history xv <> None.

Let x : Z := unique_id xv.

Lemma chain_rule_parents (v : Var) (d : Z) :
  reach root v -> is_leaf v = false -> history v <> None ->
  combine (parents v) (map snd (chain_rule v d)) = chain_rule v d /\
  map fst (chain_rule v d) = parents v.
Proof.
  intros Hr Hl Hh. destruct (history v) as [h|] eqn:Hhv; [|contradiction].
  destruct (Hlocal v h Hr Hhv Hl) as (ws & Hlen & Hcr).
  rewrite (parents_Some _ _ Hhv), Hcr.
  assert (Hlen' : length (map (Z.mul d) ws) = length (inputs h))
    by now rewrite length_map.
  rewrite (map_snd_combine _ _ Hlen'), (map_fst_combine _ _ Hlen'). easy.
Qed.

(** The gradients that leave a non-leaf Variable are those of its
    [chain_rule] pairs. *)
Lemma path_grads_step (v : Var) (d : Z) :
  reach root v -> unique_id v <> x -> is_leaf v = false -> history v <> None ->
  sum_list (path_grads x v d) =
  sum_list (map (fun pg => sum_list (path_grads x (fst pg) (snd pg)))
                (chain_rule v d)).
Proof.
  intros Hr Hne Hl Hh. rewrite path_grads_eq.
  rewrite bool_decide_eq_false_2 by exact Hne. rewrite Hl.
  rewrite sum_list_flat_map.
  now rewrite (proj1 (chain_rule_parents v d Hr Hl Hh)).
Qed.

Lemma path_grads_target (v : Var) (d : Z) :
  unique_id v = x -> sum_list (path_grads x v d) = d.
Proof.
  intros He. rewrite path_grads_eq, bool_decide_eq_true_2 by exact He.
  simpl. lia.
Qed.

Lemma path_grads_stop (v : Var) (d : Z) :
  unique_id v <> x -> is_leaf v = true \/ history v = None ->
  sum_list (path_grads x v d) = 0.
Proof.
  intros Hne Hstop. rewrite path_grads_eq, bool_decide_eq_false_2 by exact Hne.
  destruct (is_leaf v); [reflexivity|].
  destruct Hstop as [Hs|Hs]; [discriminate|].
  now rewrite (parents_None _ Hs).
Qed.

(** Gradients travel linearly. *)
Lemma path_grads_linear (u : Var) :
  reach root u -> forall d, sum_list (path_grads x u d) = d * path_coeff x u.
Proof.
  induction u as [u IH] using Var_parents_ind. intros Hr d.
  unfold path_coeff.
  destruct (decide (unique_id u = x)) as [He|Hne].
  { rewrite !path_grads_target by exact He. lia. }
  destruct (is_leaf u) eqn:Hl.
  { rewrite !path_grads_stop by auto. lia. }
  destruct (history u) as [h|] eqn:Hh.
  2:{ rewrite !path_grads_stop by auto. lia. }
  assert (Hhu : history u <> None) by now rewrite Hh.
  rewrite !path_grads_step by assumption.
  destruct (Hlocal u h Hr Hh Hl) as (ws & Hlen & Hcr).
  rewrite !Hcr. rewrite (parents_Some _ _ Hh) in IH.
  assert (Hreach : forall p, In p (inputs h) -> reach root p).
  { intros p Hp. apply (reach_trans _ u); [exact Hr|].
    apply reach_parent. now rewrite (parents_Some _ _ Hh). }
  clear Hcr Hlen. revert ws.
  induction IH as [|p ps Hp _ IHps]; intros ws; [simpl; lia|].
  destruct ws as [|w ws]; [simpl; lia|].
  simpl. rewrite IHps by (intros q Hq; apply Hreach; now right).
  rewrite (Hp (Hreach p (or_introl eq_refl)) (d * w)).
  rewrite (Hp (Hreach p (or_introl eq_refl)) (1 * w)).
  unfold path_coeff. ring.
Qed.

Lemma path_coeff_target (v : Var) : unique_id v = x -> path_coeff x v = 1.
Proof. intros He. unfold path_coeff. now apply path_grads_target. Qed.

Lemma path_coeff_stop (v : Var) :
  unique_id v <> x -> is_leaf v = true \/ history v = None -> path_coeff x v = 0.
Proof. intros Hne Hs. unfold path_coeff. now apply path_grads_stop. Qed.

(** A Variable of the graph without History passes nothing on to the
    target. *)
Lemma path_coeff_no_history (p : Var) :
  reach root p -> history p = None -> path_coeff x p = 0.
Proof.
  intros Hr Hh. apply path_coeff_stop; [|now right].
  intros He. apply Huniq in He; [|exact Hr|exact Hxv]. subst p. contradiction.
Qed.

Lemma path_coeff_step (v : Var) (d : Z) :
  reach root v -> unique_id v <> x -> is_leaf v = false -> history v <> None ->
  sum_list (map (fun pg => snd pg * path_coeff x (fst pg)) (chain_rule v d))
  = d * path_coeff x v.
Proof.
  intros Hr Hne Hl Hh.
  rewrite <- (path_grads_linear v Hr d), (path_grads_step v d Hr Hne Hl Hh).
  f_equal. apply map_ext_in. intros [p g] Hin. simpl.
  symmetry. apply path_grads_linear.
  apply (reach_trans _ v); [exact Hr|]. apply reach_parent.
  rewrite <- (proj2 (chain_rule_parents v d Hr Hl Hh)).
  now apply (in_map fst) in Hin.
Qed.

Lemma potential_cons (g : Z -> Z) (u : Var) (rem : list Var) :
  potential x g (u :: rem) = g (unique_id u) * path_coeff x u + potential x g rem.
Proof. reflexivity. Qed.

Lemma potential_ext (g g' : Z -> Z) (rem : list Var) :
  (forall u, In u rem -> g (unique_id u) = g' (unique_id u)) ->
  potential x g rem = potential x g' rem.
Proof.
  intros Hg. unfold potential. f_equal. apply map_ext_in.
  intros u Hu. now rewrite Hg.
Qed.

Lemma potential_zero (g : Z -> Z) (rem : list Var) :
  (forall u, In u rem -> g (unique_id u) = 0 \/ path_coeff x u = 0) ->
  potential x g rem = 0.
Proof.
  induction rem as [|u rem IH]; intros Hz; [reflexivity|].
  rewrite potential_cons, IH by (intros w Hw; apply Hz; now right).
  destruct (Hz u (or_introl eq_refl)) as [-> | ->]; lia.
Qed.

(** One more gradient [a] for the Variable [p]. *)
Lemma potential_add_one (g : Z -> Z) (p : Var) (a : Z) (rem : list Var) :
  NoDup (map unique_id rem) ->
  (forall u, In u rem -> reach root u) ->
  reach root p ->
  In p rem \/ path_coeff x p = 0 ->
  potential x (fun i => g i + (if bool_decide (unique_id p = i) then a else 0)) rem
  = potential x g rem + a * path_coeff x p.
Proof.
  induction rem as [|u rem IH]; intros Hn Hr Hp Hin.
  - destruct Hin as [[]|Hc]. rewrite Hc. unfold potential. simpl. lia.
  - simpl in Hn. apply NoDup_cons in Hn as [Hu Hn].
    rewrite !potential_cons.
    destruct (decide (unique_id p = unique_id u)) as [He|Hne].
    + assert (p = u) as -> by (apply Huniq; auto using in_eq).
      rewrite bool_decide_eq_true_2 by reflexivity.
      rewrite (potential_ext _ g rem); [ring|].
      intros w Hw. rewrite bool_decide_eq_false_2; [lia|].
      intros Hc. apply Hu. rewrite Hc. apply list_elem_of_In. now apply in_map.
    + rewrite bool_decide_eq_false_2 by exact Hne.
      rewrite IH; [lia|exact Hn|intros w Hw; apply Hr; now right|exact Hp|].
      destruct Hin as [[->|Hin]|Hc]; [contradiction|now left|now right].
Qed.

(** The gradients of a whole [chain_rule] result. *)
Lemma potential_contrib (cs : list (Var * Z)) (rem : list Var) :
  NoDup (map unique_id rem) ->
  (forall u, In u rem -> reach root u) ->
  (forall pg, In pg cs -> reach root (fst pg) /\
                          (In (fst pg) rem \/ path_coeff x (fst pg) = 0)) ->
  forall g,
    potential x (fun i => g i + contrib i cs) rem
    = potential x g rem
      + sum_list (map (fun pg => snd pg * path_coeff x (fst pg)) cs).
Proof.
  intros Hn Hr. induction cs as [|[p a] cs IH]; intros Hcs g.
  - simpl. rewrite (potential_ext _ g); [lia|].
    intros u _. unfold contrib. simpl. lia.
  - rewrite (potential_ext _
               (fun i => (g i + (if bool_decide (unique_id p = i) then a else 0))
                         + contrib i cs)).
    2:{ intros u _. rewrite contrib_cons. simpl. lia. }
    rewrite IH by (intros pg Hpg; apply Hcs; now right).
    destruct (Hcs (p, a) (or_introl eq_refl)) as [Hp Hin].
    rewrite potential_add_one by assumption.
    simpl. lia.
Qed.

(** Processing the head of what remains keeps the potential, unless the
    head is the target. *)
Lemma potential_step (v : Var) (rem : list Var) (g : Z -> Z) :
  NoDup (map unique_id (v :: rem)) ->
  (forall u, In u (v :: rem) -> reach root u /\ history u <> None) ->
  (forall p, In p (parents v) -> history p <> None -> In p rem) ->
  unique_id v <> x ->
  potential x (next_grads v g) rem = potential x g (v :: rem).
Proof.
  intros Hn Hm Hpar Hne.
  destruct (Hm v (or_introl eq_refl)) as [Hrv Hhv].
  simpl in Hn. apply NoDup_cons in Hn as [_ Hn].
  rewrite potential_cons. unfold next_grads.
  destruct (is_leaf v) eqn:Hl.
  - rewrite path_coeff_stop by auto. lia.
  - rewrite potential_contrib.
    + rewrite path_coeff_step by assumption. lia.
    + exact Hn.
    + intros u Hu. apply Hm. now right.
    + intros [p a] Hin. simpl.
      assert (Hp : In p (parents v)).
      { rewrite <- (proj2 (chain_rule_parents v (g (unique_id v)) Hrv Hl Hhv)).
        now apply (in_map fst) in Hin. }
      assert (Hrp : reach root p).
      { apply (reach_trans _ v); [exact Hrv|now apply reach_parent]. }
      split; [exact Hrp|].
      destruct (history p) as [hp|] eqn:Hhp.
      * left. apply Hpar; [exact Hp|]. now rewrite Hhp.
      * right. now apply path_coeff_no_history.
Qed.

Lemma rev_sorted_tail (v : Var) (l : list Var) :
  rev_sorted (v :: l) ->
  rev_sorted l /\ forall p, In p (parents v) -> history p <> None -> In p l.
Proof.
  intros Hs. split.
  - intros l1 w l2 p Heq. apply (Hs (v :: l1) w l2 p). now rewrite Heq.
  - intros p. now apply (Hs [] v l p).
Qed.

(** The potential is kept along any stretch of the loop that does not
    contain the target. *)
Lemma potential_loop (l1 : list Var) :
  forall (rest : list Var) (g : Z -> Z),
    NoDup (map unique_id (l1 ++ rest)) ->
    rev_sorted (l1 ++ rest) ->
    (forall u, In u (l1 ++ rest) -> reach root u /\ history u <> None) ->
    ~ In x (map unique_id l1) ->
    potential x (loop_grads l1 g) rest = potential x g (l1 ++ rest).
Proof.
  induction l1 as [|v l1 IH]; intros rest g Hn Hs Hm Hx; [reflexivity|].
  simpl in *. destruct (rev_sorted_tail _ _ Hs) as [Hs' Hpar].
  rewrite IH.
  - apply potential_step; try assumption. tauto.
  - now apply NoDup_cons in Hn as [_ Hn].
  - exact Hs'.
  - intros u Hu. apply Hm. now right.
  - tauto.
Qed.

(** Behind the target nothing leads back to it. *)
Lemma path_coeff_later (l1 l2 : list Var) :
  NoDup (map unique_id (l1 ++ xv :: l2)) ->
  rev_sorted (l1 ++ xv :: l2) ->
  (forall u, In u (l1 ++ xv :: l2) -> reach root u /\ history u <> None) ->
  forall u, In u l2 -> path_coeff x u = 0.
Proof.
  intros Hn Hs Hm u.
  induction u as [u IH] using Var_parents_ind. intros Hu.
  assert (Hul : In u (l1 ++ xv :: l2)) by (apply in_app_iff; right; now right).
  destruct (Hm u Hul) as [Hru Hhu].
  assert (Hne : unique_id u <> x).
  { intros He. apply Huniq in He; [|exact Hru|exact Hxv]. subst u.
    rewrite map_app in Hn. apply NoDup_app in Hn as (_ & _ & Hn).
    simpl in Hn. apply NoDup_cons in Hn as [Hn _].
    apply Hn. apply list_elem_of_In. now apply in_map. }
  destruct (is_leaf u) eqn:Hl; [apply path_coeff_stop; auto|].
  pose proof (path_coeff_step u 1 Hru Hne Hl Hhu) as Hstep.
  rewrite Z.mul_1_l in Hstep. rewrite <- Hstep.
  apply in_split in Hu as (a & b & ->).
  assert (Hzero : forall pg, In pg (chain_rule u 1) -> path_coeff x (fst pg) = 0).
  { intros [p w] Hin. simpl.
    assert (Hp : In p (parents u)).
    { rewrite <- (proj2 (chain_rule_parents u 1 Hru Hl Hhu)).
      now apply (in_map fst) in Hin. }
    destruct (history p) as [hp|] eqn:Hhp.
    - rewrite List.Forall_forall in IH. apply IH; [exact Hp|].
      apply in_app_iff. right. right.
      apply (Hs (l1 ++ xv :: a) u b p); [|exact Hp|now rewrite Hhp].
      now rewrite <- app_assoc.
    - apply path_coeff_no_history; [|exact Hhp].
      apply (reach_trans _ u); [exact Hru|now apply reach_parent]. }
  clear Hstep. induction (chain_rule u 1) as [|pg cs IHcs]; [reflexivity|].
  simpl. rewrite (Hzero pg (or_introl eq_refl)).
  rewrite IHcs by (intros q Hq; apply Hzero; now right). lia.
Qed.

End Potential.

Section BackpropagateValue.
Import Autodiff.

Lemma accumulated_none (i : Z) (cs : list Call) :
  ~ In i (map unique_id (map call_target cs)) -> accumulated i cs = [].
Proof.
  induction cs as [|c cs IH]; [reflexivity|].
  simpl. intros Hn. rewrite IH by tauto.
  destruct c as [v y|v d]; simpl in *; [|reflexivity].
  rewrite bool_decide_eq_false_2 by tauto. reflexivity.
Qed.

Lemma grad_of_singleton (i j d : Z) :
  grad_of {[i := d]} j = if bool_decide (i = j) then d else 0.
Proof.
  unfold grad_of. case_bool_decide as He.
  - subst j. now rewrite lookup_singleton_eq.
  - now rewrite lookup_singleton_ne.
Qed.

(** In a graph with unique ids and local chain rules, the one call
    [backpropagate] makes on a Variable [xv] that has a History and is not
    the root carries the total derivative at [xv]; no call before or after
    it is on [xv]. *)
Lemma backpropagate_value (root : Var) (deriv : Z) (xv : Var) :
  unique_ids root -> local_chain_rules root ->
  reach root xv -> history xv <> None -> xv <> root ->
  exists c1 c2,
    calls (backpropagate root deriv) =
      c1 ++ call_on xv (total_derivative root deriv (unique_id xv)) :: c2 /\
    ~ In (unique_id xv) (map unique_id (map call_target c1)) /\
    ~ In (unique_id xv) (map unique_id (map call_target c2)).
Proof.
  intros Huniq Hlocal Hxv Hxh Hne.
  set (g0 := grad_of {[unique_id root := deriv]}).
  pose proof (rev_post_nodup root Huniq) as Hn.
  pose proof (rev_post_sorted root Huniq) as Hs.
  assert (Hm : forall u, In u (rev (top_order (visit root (mkSortState ∅ [])))) ->
                         reach root u /\ history u <> None).
  { intros u Hu. apply in_rev in Hu.
    destruct (post_members root Huniq u Hu). auto. }
  assert (Hroot : history root <> None) by (eapply reach_history; eauto).
  destruct (history root) as [hr|] eqn:Hhr; [clear Hroot|contradiction].
  destruct (post_last root hr Hhr) as (post' & Hpost).
  pose proof (post_complete root Huniq xv Hxv Hxh) as Hin.
  apply in_rev in Hin. apply in_split in Hin as (l1 & l2 & HL).
  rewrite HL in Hn, Hs, Hm.
  assert (Hx1 : ~ In (unique_id xv) (map unique_id l1)).
  { rewrite map_app in Hn. apply NoDup_app in Hn as (_ & Hdis & _).
    intros Hc. apply (Hdis (unique_id xv)); apply list_elem_of_In; [exact Hc|]. now left. }
  assert (Hx2 : ~ In (unique_id xv) (map unique_id l2)).
  { rewrite map_app in Hn. apply NoDup_app in Hn as (_ & _ & Hn2).
    simpl in Hn2. apply NoDup_cons in Hn2 as [Hn2 _].
    intros Hc. apply Hn2. now apply list_elem_of_In. }
  assert (Hxr : unique_id root <> unique_id xv).
  { intros He. apply Hne. symmetry.
    apply Huniq; [apply reach_refl|exact Hxv|exact He]. }
  set (g1 := loop_grads l1 g0).
  assert (Hval : g1 (unique_id xv) = total_derivative root deriv (unique_id xv)).
  { pose proof (potential_loop root Huniq Hlocal xv Hxv Hxh l1 (xv :: l2) g0
                  Hn Hs Hm Hx1) as Hpot.
    fold g1 in Hpot. rewrite potential_cons in Hpot.
    rewrite (path_coeff_target xv xv eq_refl) in Hpot.
    rewrite (potential_zero xv g1 l2) in Hpot.
    2:{ intros u Hu. right.
        exact (path_coeff_later root Huniq Hlocal xv Hxv Hxh l1 l2 Hn Hs Hm u Hu). }
    rewrite <- HL, Hpost, rev_app_distr in Hpot. simpl in Hpot.
    rewrite potential_cons in Hpot.
    rewrite (potential_zero xv g0 (rev post')) in Hpot.
    2:{ intros u Hu. left. unfold g0. rewrite grad_of_singleton.
        rewrite bool_decide_eq_false_2; [reflexivity|].
        pose proof (rev_post_nodup root Huniq) as Hn'.
        rewrite Hpost, rev_app_distr in Hn'. simpl in Hn'.
        apply NoDup_cons in Hn' as [Hn' _].
        intros He. apply Hn'. rewrite He. apply list_elem_of_In. now apply in_map. }
    unfold g0 at 1 in Hpot. rewrite grad_of_singleton in Hpot.
    rewrite bool_decide_eq_true_2 in Hpot by reflexivity.
    unfold total_derivative.
    rewrite (path_grads_linear root Hlocal xv root (reach_refl root) deriv).
    lia. }
  exists (loop_calls l1 g0), (loop_calls (l2 ++ [root]) (next_grads xv g1)).
  split; [|split].
  - rewrite backpropagate_calls, topological_sort_eq, HL, <- app_assoc.
    rewrite loop_calls_app. fold g0 g1. simpl. now rewrite Hval.
  - now rewrite loop_calls_targets.
  - rewrite loop_calls_targets, map_app, in_app_iff. simpl.
    tauto.
Qed.

(** C2 (amended). In a graph with unique ids whose chain rules are local,
    [backpropagate] calls [accumulate_derivative] exactly once on every
    leaf of the graph that has a History and is not the root, with the
    total derivative at that leaf (the sum over all paths of the products
    of the local derivatives, times [deriv]); it never calls it on a
    Variable without History other than the root, nor on a Variable that is
    not in the graph. *)
Theorem backpropagate_accumulates (root : Var) (deriv : Z) :
  unique_ids root -> local_chain_rules root ->
  (forall x, reach root x -> is_leaf x = true -> history x <> None -> x <> root ->
     accumulated (unique_id x) (calls (backpropagate root deriv))
     = [total_derivative root deriv (unique_id x)]) /\
  (forall x, reach root x -> history x = None -> x <> root ->
     accumulated (unique_id x) (calls (backpropagate root deriv)) = []) /\
  (forall i, (forall u, reach root u -> unique_id u <> i) ->
     accumulated i (calls (backpropagate root deriv)) = []).
Proof.
  intros Huniq Hlocal.
  pose proof (topological_sort_members root Huniq) as Hmem.
  assert (Htargets : map call_target (calls (backpropagate root deriv))
                     = topological_sort root).
  { rewrite backpropagate_calls. apply loop_calls_targets. }
  split; [|split].
  - intros x Hx Hl Hh Hne.
    destruct (backpropagate_value root deriv x Huniq Hlocal Hx Hh Hne)
      as (c1 & c2 & -> & H1 & H2).
    rewrite accumulated_app. simpl.
    rewrite (accumulated_none _ c1 H1).
    unfold call_on. rewrite Hl. simpl.
    rewrite bool_decide_eq_true_2 by reflexivity. simpl.
    fold (accumulated (unique_id x) c2). now rewrite (accumulated_none _ c2 H2).
  - intros x Hx Hh Hne. apply accumulated_none. rewrite Htargets.
    intros Hin. apply in_map_iff in Hin as (w & Hw & Hin).
    apply Hmem in Hin as [Hrw Hcase].
    apply Huniq in Hw; [|exact Hrw|exact Hx]. subst w.
    destruct Hcase as [Hc|Hc]; contradiction.
  - intros i Hi. apply accumulated_none. rewrite Htargets.
    intros Hin. apply in_map_iff in Hin as (w & Hw & Hin).
    apply Hmem in Hin as [Hrw _]. exact (Hi w Hrw Hw).
Qed.

End BackpropagateValue.


(** ** The diamond *)

Section Diamond.
Import Autodiff Examples.

Lemma visit_seen (v : Var) (st : SortState) :
  unique_id v ∈ visited st -> visit v st = st.
Proof. intros H. rewrite visit_eq. now rewrite bool_decide_eq_true_2. Qed.

Lemma visit_fresh (v : Var) (h : History Var) (vis : gset Z) (l : list Var) :
  unique_id v ∉ vis -> history v = Some h ->
  visit v (mkSortState vis l) =
  mkSortState
    (visited (visit_all (inputs h) (mkSortState ({[unique_id v]} ∪ vis) l)))
    (top_order (visit_all (inputs h) (mkSortState ({[unique_id v]} ∪ vis) l))
     ++ [v]).
Proof.
  intros H Hh. rewrite visit_eq. simpl.
  rewrite bool_decide_eq_false_2 by exact H. now rewrite Hh.
Qed.

Lemma NoDup_four (a b c d : Z) :
  NoDup [a; b; c; d] ->
  b <> a /\ c <> a /\ d <> a /\ c <> b /\ d <> b /\ d <> c.
Proof.
  intros Hn.
  apply NoDup_cons in Hn as [Ha Hn]. apply NoDup_cons in Hn as [Hb Hn].
  apply NoDup_cons in Hn as [Hc _].
  rewrite !list_elem_of_In in Ha, Hb, Hc. simpl in Ha, Hb, Hc. tauto.
Qed.

(** The sequence for the diamond: [d], [c], [b], [x], and [d] once more. *)
Lemma diamond_order (id_d id_b id_c id_x : Z) (fdb fdc fbx fcx : Z -> Z) :
  NoDup [id_d; id_b; id_c; id_x] ->
  topological_sort (diamond id_d id_b id_c id_x fdb fdc fbx fcx)
  = [diamond id_d id_b id_c id_x fdb fdc fbx fcx;
     unary id_c (leaf id_x) fcx; unary id_b (leaf id_x) fbx; leaf id_x;
     diamond id_d id_b id_c id_x fdb fdc fbx fcx].
Proof.
  intros Hn. destruct (NoDup_four _ _ _ _ Hn) as (H1 & H2 & H3 & H4 & H5 & H6).
  unfold topological_sort, diamond. cbv zeta.
  set (x := leaf id_x).
  set (b := unary id_b x fbx).
  set (c := unary id_c x fcx).
  set (d := mkVar id_d _ _ _ _).
  assert (Hx : forall vis l, id_x ∉ vis ->
            visit x (mkSortState vis l) = mkSortState ({[id_x]} ∪ vis) (l ++ [x])).
  { intros vis l Hv. now rewrite (visit_fresh x _ vis l Hv eq_refl). }
  assert (HB : forall vis l, id_b ∉ vis -> id_x ∉ vis ->
            visit b (mkSortState vis l)
            = mkSortState ({[id_x]} ∪ ({[id_b]} ∪ vis)) ((l ++ [x]) ++ [b])).
  { intros vis l Hv Hv'. rewrite (visit_fresh b _ vis l Hv eq_refl).
    cbn [inputs visit_all fold_left unique_id b unary]. rewrite Hx by set_solver.
    reflexivity. }
  assert (HC : forall vis l, id_c ∉ vis -> id_x ∈ vis ->
            visit c (mkSortState vis l)
            = mkSortState ({[id_c]} ∪ vis) (l ++ [c])).
  { intros vis l Hv Hv'. rewrite (visit_fresh c _ vis l Hv eq_refl).
    cbn [inputs visit_all fold_left unique_id c unary].
    rewrite (visit_seen x) by (cbn; set_solver). reflexivity. }
  rewrite (visit_fresh d _ ∅ [d] (not_elem_of_empty _) eq_refl).
  cbn [inputs visit_all fold_left unique_id d].
  rewrite HB by set_solver. rewrite HC by set_solver.
  reflexivity.
Qed.

(** C6 (amended). On a diamond [d = a(b(x), c(x))] with four distinct ids
    whose leaf [x] has a History, [backpropagate(d, seed)] calls
    [accumulate_derivative] on [x] once, with the sum of the gradient that
    arrives through [b] and the gradient that arrives through [c]. *)
Theorem diamond_accumulates (id_d id_b id_c id_x : Z) (fdb fdc fbx fcx : Z -> Z)
    (seed : Z) :
  NoDup [id_d; id_b; id_c; id_x] ->
  accumulated id_x
    (calls (backpropagate (diamond id_d id_b id_c id_x fdb fdc fbx fcx) seed))
  = [fbx (fdb seed) + fcx (fdc seed)].
Proof.
  intros Hn. destruct (NoDup_four _ _ _ _ Hn) as (H1 & H2 & H3 & H4 & H5 & H6).
  rewrite backpropagate_calls, (diamond_order _ _ _ _ _ _ _ _ Hn).
  cbn [loop_calls call_on next_grads is_leaf diamond unary leaf unique_id
       chain_rule accumulated flat_map app].
  unfold contrib. cbn [map fst snd unique_id sum_list fold_right unary leaf].
  rewrite !grad_of_singleton.
  repeat (first [ rewrite bool_decide_eq_true_2 by reflexivity
                | rewrite bool_decide_eq_false_2 by congruence ]).
  rewrite ?Z.add_0_l, ?Z.add_0_r. simpl.
  f_equal. lia.
Qed.

End Diamond.

Section MoreExampleFacts.
Import Autodiff Examples.

Ltac solve_local_chain_rules :=
  intros v h Hr Hh Hl;
  apply reach_nodes in Hr; simpl in Hr;
  repeat match goal with
         | H : _ \/ _ |- _ => destruct H as [H|H]
         | H : False |- _ => destruct H
         end;
  subst; try discriminate Hl;
  injection Hh as <-;
  match goal with
  | |- exists ws, _ /\ forall d, chain_rule ?v d = _ =>
      exists (map snd (chain_rule v 1)); split; [|intros d]; reflexivity
  end.

Lemma over_bare_local : local_chain_rules over_bare.
Proof. solve_local_chain_rules. Qed.

Lemma diamond_local : local_chain_rules diamond_d.
Proof. solve_local_chain_rules. Qed.

(** C2, as stated, fails on [y = f(x)] with [x] a leaf without History:
    [accumulate_derivative] is never called on [x], whose total derivative
    is [2]. *)
Lemma backpropagate_skips_bare_leaf :
  unique_ids over_bare /\ local_chain_rules over_bare /\
  reach over_bare bare_x /\ is_leaf bare_x = true /\
  total_derivative over_bare 1 (unique_id bare_x) = 2 /\
  accumulated (unique_id bare_x) (calls (backpropagate over_bare 1)) = [] /\
  accumulated (unique_id bare_x) (calls (backpropagate over_bare 1))
  <> [total_derivative over_bare 1 (unique_id bare_x)].
Proof.
  split; [exact over_bare_unique_ids|]. split; [exact over_bare_local|].
  split; [apply reach_parent; now left|]. repeat split. discriminate.
Qed.

(** C6, as stated, fails on the diamond whose leaf [x] has no History:
    nothing is accumulated on [x], where the two paths bring
    [5 * 2 + 7 * 3]. *)
Lemma bare_diamond_accumulates_nothing :
  unique_ids bare_diamond_d /\
  is_leaf bare_diamond_x = true /\
  accumulated (unique_id bare_diamond_x) (calls (backpropagate bare_diamond_d 1)) = [] /\
  accumulated (unique_id bare_diamond_x) (calls (backpropagate bare_diamond_d 1))
  <> [1 * 5 * 2 + 1 * 7 * 3].
Proof. split; [exact bare_diamond_unique_ids|]. repeat split. discriminate. Qed.

End MoreExampleFacts.

Lemma backpropagate_accumulates_witness :
  Autodiff.unique_ids Examples.diamond_d /\
  Autodiff.local_chain_rules Examples.diamond_d /\
  Autodiff.accumulated 4
    (Autodiff.calls (Autodiff.backpropagate Examples.diamond_d 1)) = [31].
Proof.
  split; [exact diamond_unique_ids|]. split; [exact diamond_local|].
  apply (proj1 (backpropagate_accumulates Examples.diamond_d 1
                  diamond_unique_ids diamond_local) Examples.diamond_x).
  - exact diamond_reach_x.
  - reflexivity.
  - discriminate.
  - discriminate.
Defined.

Lemma diamond_accumulates_witness :
  NoDup [1; 2; 3; 4] /\
  Autodiff.accumulated 4
    (Autodiff.calls
       (Autodiff.backpropagate
          (Examples.diamond 1 2 3 4 (Z.mul 5) (Z.mul 7) (Z.mul 2) (Z.mul 3)) 1))
  = [2 * (5 * 1) + 3 * (7 * 1)].
Proof.
  assert (Hn : NoDup [1; 2; 3; 4]).
  { repeat (apply NoDup_cons; split; [rewrite list_elem_of_In; simpl; lia|]).
    apply NoDup_nil_2. }
  split; [exact Hn|].
  exact (diamond_accumulates 1 2 3 4 (Z.mul 5) (Z.mul 7) (Z.mul 2) (Z.mul 3) 1 Hn).
Defined.

(** * Further properties *)

(** ** Context: runs of save_for_backward *)

Section ContextRuns.
Import Context.
Context {A : Type}.

Lemma save_all_snoc (self : Ctx A) (calls : list (list A)) (values : list A) :
  save_all self (calls ++ [values]) = save_for_backward (save_all self calls) values.
Proof. unfold save_all. now rewrite fold_left_app. Qed.

Lemma save_for_backward_flag (self : Ctx A) (values : list A) :
  no_grad (save_for_backward self values) = no_grad self.
Proof. unfold save_for_backward. now destruct (no_grad self) eqn:E. Qed.

Lemma save_all_flag (calls : list (list A)) :
  forall self : Ctx A, no_grad (save_all self calls) = no_grad self.
Proof.
  induction calls as [|vs calls IH]; intros self; [reflexivity|].
  change (save_all self (vs :: calls))
    with (save_all (save_for_backward self vs) calls).
  now rewrite IH, save_for_backward_flag.
Qed.

(** X1. A Context whose [no_grad] is true is left exactly as it is by any
    run of [save_for_backward] calls: it keeps the [saved_values] it was
    constructed with, empty or not. *)
Theorem no_grad_context_frozen (self : Ctx A) (calls : list (list A)) :
  no_grad self = true ->
  save_all self calls = self /\
  saved_tensors (save_all self calls) = saved_values self.
Proof.
  intros Hng. rewrite save_all_no_grad by exact Hng. now split.
Qed.

(** X2. No run of [save_for_backward] calls changes the [no_grad] flag, and
    on a Context whose [no_grad] is false [saved_tensors] is what the last
    call of the run saved (what the Context held before, if the run is
    empty). *)
Theorem save_for_backward_last_wins (self : Ctx A) (calls : list (list A)) :
  no_grad (save_all self calls) = no_grad self /\
  (no_grad self = false ->
   saved_tensors (save_all self calls) = List.last calls (saved_values self)).
Proof.
  split; [apply save_all_flag|].
  intros Hng. destruct calls as [|vs calls _] using rev_ind; [reflexivity|].
  rewrite save_all_snoc, last_last.
  unfold save_for_backward. now rewrite save_all_flag, Hng.
Qed.

End ContextRuns.

Lemma no_grad_context_frozen_witness :
  Context.no_grad (Context.mkCtx true [5; 6]) = true /\
  Context.saved_tensors
    (Context.save_all (Context.mkCtx true [5; 6]) [[1]; [2; 3]]) = [5; 6].
Proof.
  split; [reflexivity|].
  exact (proj2 (no_grad_context_frozen (Context.mkCtx true [5; 6]) [[1]; [2; 3]]
                  eq_refl)).
Defined.

(** ** central_difference: the index *)

Section CentralDifferenceIndex.
Import CentralDifference.

Lemma list_index_None (n : nat) (i : Z) :
  list_index n i = None <-> i < - Z.of_nat n \/ Z.of_nat n <= i.
Proof.
  unfold list_index.
  destruct (0 <=? i) eqn:E1, (i <? Z.of_nat n) eqn:E2,
           (- Z.of_nat n <=? i) eqn:E3, (i <? 0) eqn:E4; simpl;
    split; intros H; try discriminate H; try reflexivity; lia.
Qed.

Lemma list_update_error (l : list float) (i : Z) (op : float -> float) :
  list_index (length l) i = None -> list_update l i op = raise IndexError.
Proof. intros H. unfold list_update. now rewrite H. Qed.

(** X3. [central_difference] raises [IndexError] exactly when [arg] is out
    of the range [-len(vals) <= arg < len(vals)], and then it has not called
    [f]; in particular it raises on an empty [vals] whatever [arg] is. *)
Theorem central_difference_index_error (f : list float -> float)
    (vals : list float) (arg : Z) (epsilon : float) :
  (result_of (central_difference f vals (Some arg) (Some epsilon)) = inl IndexError
   <-> arg < - Z.of_nat (length vals) \/ Z.of_nat (length vals) <= arg) /\
  (result_of (central_difference f vals (Some arg) (Some epsilon)) = inl IndexError ->
   calls_of (central_difference f vals (Some arg) (Some epsilon)) = []) /\
  central_difference f [] (Some arg) (Some epsilon) = ([], inl IndexError).
Proof.
  assert (Hok : forall k, list_index (length vals) arg = Some k ->
            result_of (central_difference f vals (Some arg) (Some epsilon))
            <> inl IndexError).
  { intros k Hk.
    destruct (list_update_ok vals arg (fun y => y + epsilon)%float k Hk)
      as (y & _ & Hplus).
    destruct (list_update_ok vals arg (fun y => y - epsilon)%float k Hk)
      as (y' & _ & Hminus).
    unfold central_difference. simpl. rewrite Hplus, Hminus.
    unfold truediv. simpl. destruct (2 * epsilon =? 0)%float; discriminate. }
  assert (Herr : list_index (length vals) arg = None ->
            central_difference f vals (Some arg) (Some epsilon)
            = ([], inl IndexError)).
  { intros Hn. unfold central_difference. simpl.
    now rewrite (list_update_error _ _ _ Hn). }
  split; [|split].
  - rewrite <- list_index_None.
    destruct (list_index (length vals) arg) as [k|] eqn:Hk.
    + split; [intros H; now destruct (Hok k eq_refl)|discriminate].
    + rewrite (Herr eq_refl). now split.
  - destruct (list_index (length vals) arg) as [k|] eqn:Hk.
    + intros H. now destruct (Hok k eq_refl).
    + now rewrite (Herr eq_refl).
  - unfold central_difference. simpl. rewrite list_update_error; [reflexivity|].
    apply list_index_None. simpl. lia.
Qed.

(** X4. A negative index counts from the end: for [0 <= arg < len(vals)],
    [central_difference] with [arg - len(vals)] does what it does with
    [arg], calls and result. *)
Theorem central_difference_negative_index (f : list float -> float)
    (vals : list float) (arg : Z) (epsilon : option float) :
  0 <= arg < Z.of_nat (length vals) ->
  central_difference f vals (Some (arg - Z.of_nat (length vals))) epsilon
  = central_difference f vals (Some arg) epsilon.
Proof.
  intros Hr.
  assert (Hi : list_index (length vals) (arg - Z.of_nat (length vals))
               = list_index (length vals) arg).
  { unfold list_index.
    replace (0 <=? arg - Z.of_nat (length vals)) with false by lia.
    replace (0 <=? arg) with true by lia.
    replace (arg <? Z.of_nat (length vals)) with true by lia.
    replace (- Z.of_nat (length vals) <=? arg - Z.of_nat (length vals))
      with true by lia.
    replace (arg - Z.of_nat (length vals) <? 0) with true by lia.
    simpl. f_equal. lia. }
  unfold central_difference, list_update. simpl. now rewrite Hi.
Qed.

End CentralDifferenceIndex.

Lemma central_difference_negative_index_witness :
  0 <= 1 < Z.of_nat (length [3%float; 4%float]) /\
  CentralDifference.central_difference
    (fun l => match l with [x; y] => (x * y)%float | _ => 0%float end)
    [3%float; 4%float] (Some (-1)) None
  = CentralDifference.central_difference
      (fun l => match l with [x; y] => (x * y)%float | _ => 0%float end)
      [3%float; 4%float] (Some 1) None.
Proof.
  split; [simpl; lia|].
  apply (central_difference_negative_index _ [3%float; 4%float] 1 None).
  simpl. lia.
Defined.

(** ** topological_sort on any graph *)

Section TraversalAnyGraph.
Import Autodiff.

Lemma visit_all_new (l : list Var) :
  Forall (fun p => forall st, exists new,
            top_order (visit p st) = top_order st ++ new /\
            visited st ⊆ visited (visit p st) /\
            unique_id p ∈ visited (visit p st) /\
            NoDup (map unique_id new) /\
            forall u, In u new ->
              reach p u /\ history u <> None /\
              (unique_id u ∉ visited st) /\
              unique_id u ∈ visited (visit p st)) l ->
  forall s, exists new,
    top_order (visit_all l s) = top_order s ++ new /\
    visited s ⊆ visited (visit_all l s) /\
    NoDup (map unique_id new) /\
    forall u, In u new ->
      (exists p, In p l /\ reach p u) /\ history u <> None /\
      (unique_id u ∉ visited s) /\
      unique_id u ∈ visited (visit_all l s).
Proof.
  induction 1 as [|p l Hp _ IH]; intros s.
  - exists []. simpl. rewrite app_nil_r.
    split; [reflexivity|]. split; [reflexivity|]. split; [apply NoDup_nil_2|easy].
  - destruct (Hp s) as (n1 & Ht1 & Hs1 & _ & Hn1 & Hm1).
    destruct (IH (visit p s)) as (n2 & Ht2 & Hs2 & Hn2 & Hm2).
    exists (n1 ++ n2). rewrite visit_all_cons.
    split; [now rewrite Ht2, Ht1, app_assoc|].
    split; [now transitivity (visited (visit p s))|].
    split.
    + rewrite map_app. apply NoDup_app. split; [exact Hn1|]. split; [|exact Hn2].
      intros i Hi1 Hi2. apply list_elem_of_In in Hi1, Hi2.
      apply in_map_iff in Hi1 as (u & <- & Hu).
      apply in_map_iff in Hi2 as (w & Hw & Hwin).
      destruct (Hm1 u Hu) as (_ & _ & _ & Hin).
      destruct (Hm2 w Hwin) as (_ & _ & Hnin & _).
      apply Hnin. now rewrite Hw.
    + intros u Hu. apply in_app_iff in Hu as [Hu|Hu].
      * destruct (Hm1 u Hu) as (Hr & Hh & Hnin & Hin).
        split; [exists p; split; [now left|exact Hr]|].
        split; [exact Hh|]. split; [exact Hnin|now apply Hs2].
      * destruct (Hm2 u Hu) as ((q & Hq & Hr) & Hh & Hnin & Hin).
        split; [exists q; split; [now right|exact Hr]|].
        split; [exact Hh|]. split; [|exact Hin].
        intros Hc. apply Hnin. now apply Hs1.
Qed.

(** What [visit] appends, on any graph: Variables under [v] that have a
    History, with pairwise distinct ids that were unmarked before and are
    marked after. *)
Lemma visit_new (v : Var) :
  forall st, exists new,
    top_order (visit v st) = top_order st ++ new /\
    visited st ⊆ visited (visit v st) /\
    unique_id v ∈ visited (visit v st) /\
    NoDup (map unique_id new) /\
    forall u, In u new ->
      reach v u /\ history u <> None /\
      (unique_id u ∉ visited st) /\
      unique_id u ∈ visited (visit v st).
Proof.
  induction v as [v IH] using Var_parents_ind. intros st.
  rewrite visit_eq.
  destruct (bool_decide_reflect (unique_id v ∈ visited st)) as [Hv|Hv].
  { exists []. rewrite app_nil_r. split; [reflexivity|]. split; [reflexivity|].
    split; [exact Hv|]. split; [apply NoDup_nil_2|easy]. }
  destruct (history v) as [h|] eqn:Hh.
  - rewrite (parents_Some _ _ Hh) in IH. simpl.
    destruct (visit_all_new _ IH
                (mkSortState ({[unique_id v]} ∪ visited st) (top_order st)))
      as (new & Ht & Hs & Hn & Hm).
    simpl in Ht, Hs.
    exists (new ++ [v]).
    split; [now rewrite Ht, app_assoc|].
    split; [set_solver|]. split; [set_solver|].
    split.
    + rewrite map_app. apply NoDup_snoc; [exact Hn|].
      intros Hin. apply in_map_iff in Hin as (u & Hu & Hin).
      destruct (Hm u Hin) as (_ & _ & Hnin & _).
      apply Hnin. simpl. rewrite Hu. set_solver.
    + intros u Hu. apply in_app_iff in Hu as [Hu|[<-|[]]].
      * destruct (Hm u Hu) as ((p & Hp & Hr) & Hhu & Hnin & Hin).
        split.
        { apply (reach_trans _ p); [|exact Hr].
          apply reach_parent. now rewrite (parents_Some _ _ Hh). }
        split; [exact Hhu|]. split; [|exact Hin].
        intros Hc. apply Hnin. simpl. set_solver.
      * split; [apply reach_refl|]. split; [now rewrite Hh|].
        split; [exact Hv|]. apply Hs. set_solver.
  - exists []. simpl. rewrite app_nil_r. split; [reflexivity|].
    split; [set_solver|]. split; [set_solver|]. split; [apply NoDup_nil_2|easy].
Qed.

Lemma occurrences_rev (i : Z) (l : list Var) :
  occurrences i (rev l) = occurrences i l.
Proof.
  induction l as [|w l IH]; [reflexivity|].
  simpl. rewrite occurrences_app, IH, !occurrences_cons.
  unfold occurrences at 2. simpl. lia.
Qed.

Lemma occurrences_le_one (i : Z) (l : list Var) :
  NoDup (map unique_id l) -> (occurrences i l <= 1)%nat.
Proof.
  induction l as [|w l IH]; [unfold occurrences; simpl; lia|].
  simpl. intros Hn. apply NoDup_cons in Hn as [Hw Hn].
  rewrite occurrences_cons. case_bool_decide as He; [|specialize (IH Hn); lia].
  rewrite occurrences_absent; [lia|].
  intros Hc. apply Hw. rewrite He. now apply list_elem_of_In.
Qed.

(** X5. The shape of the sequence, for every root and every graph: its
    first and its last element are the root; a root without History gives
    the one-element sequence, and a root with a History occurs exactly
    twice. *)
Theorem topological_sort_shape (root : Var) :
  (exists mid, topological_sort root = root :: mid) /\
  (forall d, List.last (topological_sort root) d = root) /\
  (history root = None -> topological_sort root = [root]) /\
  (history root <> None ->
   occurrences (unique_id root) (topological_sort root) = 2%nat).
Proof.
  split; [apply topological_sort_head|]. split; [|split].
  - intros d. rewrite topological_sort_eq. apply last_last.
  - intros Hh. now rewrite topological_sort_eq, (post_none root Hh).
  - intros Hh. destruct (history root) as [h|] eqn:Hhr; [|contradiction].
    destruct (visit_new root (mkSortState ∅ [])) as (new & Ht & _ & _ & Hn & _).
    simpl in Ht. destruct (post_last root h Hhr) as (post' & Hpost).
    rewrite topological_sort_eq, occurrences_app, occurrences_rev, Ht.
    rewrite (occurrences_nodup root new Hn).
    + rewrite occurrences_cons, bool_decide_eq_true_2 by reflexivity. reflexivity.
    + rewrite <- Ht, Hpost. apply in_app_iff. right. now left.
Qed.

(** X6. On any graph, also one whose ids clash, every element of the
    sequence is reached from the root along [history.inputs], and no id
    other than the root's occurs more than once. *)
Theorem topological_sort_any_graph (root : Var) :
  (forall u, In u (topological_sort root) -> reach root u) /\
  (forall i, i <> unique_id root ->
             (occurrences i (topological_sort root) <= 1)%nat).
Proof.
  destruct (visit_new root (mkSortState ∅ [])) as (new & Ht & _ & _ & Hn & Hm).
  simpl in Ht. split.
  - intros u Hu. apply in_topological_sort in Hu as [Hu| ->]; [|apply reach_refl].
    rewrite Ht in Hu. now apply Hm.
  - intros i Hi.
    rewrite topological_sort_eq, occurrences_app, occurrences_rev, Ht.
    rewrite occurrences_cons, bool_decide_eq_false_2 by congruence.
    pose proof (occurrences_le_one i new Hn). unfold occurrences at 2. simpl. lia.
Qed.

End TraversalAnyGraph.

(** ** topological_sort: order along paths *)

Section OrderAlongPaths.
Import Autodiff.

Lemma rev_sorted_reach (l : list Var) :
  rev_sorted l ->
  forall u p, reach u p -> history p <> None ->
    forall a b, l = a ++ u :: b -> p = u \/ In p b.
Proof.
  intros Hs u p Hr. induction Hr as [u|u h q p Hh Hq Hr IH]; intros Hp a b Hl.
  - now left.
  - right.
    assert (Hqb : In q b).
    { apply (Hs a u b q Hl).
      - now rewrite (parents_Some _ _ Hh).
      - eapply reach_history; eauto. }
    apply in_split in Hqb as (c & e & ->).
    destruct (IH Hp (a ++ u :: c) e) as [->|Hin].
    + rewrite Hl, <- app_assoc. reflexivity.
    + apply in_app_iff. right. now left.
    + apply in_app_iff. right. now right.
Qed.

(** X7. In a graph with unique ids, a Variable comes before everything it
    depends on, directly or through other Variables: if [p] has a History
    and is reached from [u], the first occurrence of [u] in the sequence
    has [p] behind it and not in front of it. *)
Theorem topological_sort_order_along_paths (root u p : Var) :
  unique_ids root ->
  reach root u -> reach u p -> p <> u -> history p <> None ->
  exists l1 l2, topological_sort root = l1 ++ u :: l2 /\
                In p l2 /\ ~ In p l1 /\ ~ In u l1.
Proof.
  intros Huniq Hru Hup Hne Hp.
  assert (Hhu : history u <> None) by (eapply reach_history; eauto).
  pose proof (post_complete root Huniq u Hru Hhu) as Hu.
  apply in_rev in Hu. apply in_split in Hu as (a & b & Hab).
  pose proof (rev_post_sorted root Huniq) as Hs.
  destruct (rev_sorted_reach _ Hs u p Hup Hp a b Hab) as [Heq|Hpb];
    [contradiction|].
  pose proof (rev_post_nodup root Huniq) as Hn. rewrite Hab in Hn.
  destruct (NoDup_ids_split a b u p Hn Hpb) as (Hpa & Hua & _).
  exists a, (b ++ [root]). split; [|split; [|split]].
  - rewrite topological_sort_eq, Hab, <- app_assoc. reflexivity.
  - apply in_app_iff. now left.
  - exact Hpa.
  - exact Hua.
Qed.

End OrderAlongPaths.

Lemma topological_sort_order_along_paths_witness :
  Autodiff.unique_ids Examples.diamond_d /\
  exists l1 l2,
    Autodiff.topological_sort Examples.diamond_d
    = l1 ++ Examples.diamond_d :: l2 /\
    In Examples.diamond_x l2 /\ ~ In Examples.diamond_x l1.
Proof.
  split; [exact diamond_unique_ids|].
  destruct (topological_sort_order_along_paths
              Examples.diamond_d Examples.diamond_d Examples.diamond_x
              diamond_unique_ids (Autodiff.reach_refl _) diamond_reach_x)
    as (l1 & l2 & Heq & Hin & Hnin & _).
  - discriminate.
  - discriminate.
  - exists l1, l2. repeat split; assumption.
Defined.

(** ** backpropagate: the root, and the Variables between root and leaves *)

Section BackpropagateMore.
Import Autodiff.

Lemma chain_rule_calls_app (i : Z) (c1 c2 : list Call) :
  chain_rule_calls i (c1 ++ c2) = chain_rule_calls i c1 ++ chain_rule_calls i c2.
Proof. unfold chain_rule_calls. apply flat_map_app. Qed.

Lemma chain_rule_calls_none (i : Z) (cs : list Call) :
  ~ In i (map unique_id (map call_target cs)) -> chain_rule_calls i cs = [].
Proof.
  induction cs as [|c cs IH]; [reflexivity|].
  simpl. intros Hn. rewrite IH by tauto.
  destruct c as [v y|v d]; simpl in *; [reflexivity|].
  rewrite bool_decide_eq_false_2 by tauto. reflexivity.
Qed.

Lemma contrib_zero (i : Z) (cs : list (Var * Z)) :
  (forall pg, In pg cs -> unique_id (fst pg) <> i) -> contrib i cs = 0.
Proof.
  induction cs as [|pg cs IH]; intros Hcs; [reflexivity|].
  rewrite contrib_cons, IH by (intros q Hq; apply Hcs; now right).
  rewrite bool_decide_eq_false_2; [reflexivity|]. apply Hcs. now left.
Qed.

(** The entry of an id that no processed Variable passes gradient to stays
    as it is. *)
Lemma loop_grads_untouched (i : Z) (l : list Var) :
  (forall v, In v l -> is_leaf v = false ->
     forall d pg, In pg (chain_rule v d) -> unique_id (fst pg) <> i) ->
  forall g, loop_grads l g i = g i.
Proof.
  induction l as [|v l IH]; intros Hl g; [reflexivity|].
  simpl. rewrite IH by (intros w Hw; apply Hl; now right).
  unfold next_grads. destruct (is_leaf v) eqn:Hv; [reflexivity|].
  rewrite contrib_zero; [lia|].
  intros pg Hpg. apply (Hl v (or_introl eq_refl) Hv _ pg Hpg).
Qed.

(** X8. [backpropagate] always starts with the call on the root, handing
    it the seed [deriv]; on a root without History that call is the only
    one. *)
Theorem backpropagate_first_call (root : Var) (deriv : Z) :
  (exists rest, calls (backpropagate root deriv) = call_on root deriv :: rest) /\
  (history root = None -> calls (backpropagate root deriv) = [call_on root deriv]).
Proof.
  assert (Hg : grad_of {[unique_id root := deriv]} (unique_id root) = deriv).
  { rewrite grad_of_singleton. now rewrite bool_decide_eq_true_2. }
  split.
  - destruct (topological_sort_head root) as [l Hl].
    rewrite backpropagate_calls, Hl. simpl. rewrite Hg. eauto.
  - intros Hh. rewrite backpropagate_calls, topological_sort_eq, (post_none root Hh).
    simpl. now rewrite Hg.
Qed.

(** The calls of [backpropagate] on a root that has a History: the call on
    the root with the seed, the calls on the other Variables, and the call
    on the root with the seed once more. *)
Lemma backpropagate_root_calls (root : Var) (deriv : Z) :
  unique_ids root -> local_chain_rules root -> history root <> None ->
  exists mid,
    calls (backpropagate root deriv)
    = call_on root deriv :: mid ++ [call_on root deriv] /\
    ~ In (unique_id root) (map unique_id (map call_target mid)).
Proof.
  intros Huniq Hlocal Hh.
  destruct (history root) as [h|] eqn:Hhr; [|contradiction].
  destruct (post_last root h Hhr) as (post' & Hpost).
  pose proof (rev_post_nodup root Huniq) as Hn.
  rewrite Hpost, rev_app_distr in Hn. simpl in Hn.
  apply NoDup_cons in Hn as [Hroot _].
  set (g0 := grad_of {[unique_id root := deriv]}).
  assert (Hg0 : g0 (unique_id root) = deriv).
  { unfold g0. rewrite grad_of_singleton. now rewrite bool_decide_eq_true_2. }
  assert (Hkeep : loop_grads (root :: rev post') g0 (unique_id root)
                  = g0 (unique_id root)).
  { apply loop_grads_untouched. intros v Hv Hl d [p a] Hpg He. simpl in He.
    assert (Hvp : In v (top_order (visit root (mkSortState ∅ [])))).
    { rewrite Hpost. apply in_rev. rewrite rev_app_distr. exact Hv. }
    destruct (post_members root Huniq v Hvp) as [Hhv Hrv].
    assert (Hp : In p (parents v)).
    { rewrite <- (proj2 (chain_rule_parents root Hlocal v d Hrv Hl Hhv)).
      now apply (in_map fst) in Hpg. }
    assert (p = root) as ->.
    { apply Huniq; [|apply reach_refl|exact He].
      apply (reach_trans _ v); [exact Hrv|now apply reach_parent]. }
    exact (reach_acyclic v root Hp Hrv). }
  exists (loop_calls (rev post') (next_grads root g0)). split.
  - rewrite backpropagate_calls, topological_sort_eq, Hpost, rev_app_distr.
    fold g0. simpl. rewrite Hg0. f_equal.
    rewrite loop_calls_app. simpl. f_equal.
    simpl in Hkeep. now rewrite Hkeep, Hg0.
  - rewrite loop_calls_targets. intros Hc. apply Hroot. now apply list_elem_of_In.
Qed.

(** X9. In a graph with unique ids and local chain rules, a root that has
    a History receives its call twice, with the seed both times: a root
    that is a leaf is accumulated twice, any other root has its
    [chain_rule] called twice. *)
Theorem backpropagate_root_twice (root : Var) (deriv : Z) :
  unique_ids root -> local_chain_rules root -> history root <> None ->
  (is_leaf root = true ->
   accumulated (unique_id root) (calls (backpropagate root deriv)) = [deriv; deriv]) /\
  (is_leaf root = false ->
   chain_rule_calls (unique_id root) (calls (backpropagate root deriv))
   = [deriv; deriv]).
Proof.
  intros Huniq Hlocal Hh.
  destruct (backpropagate_root_calls root deriv Huniq Hlocal Hh)
    as (mid & -> & Hmid).
  split; intros Hl.
  - change (call_on root deriv :: mid ++ [call_on root deriv])
      with ([call_on root deriv] ++ mid ++ [call_on root deriv]).
    rewrite !accumulated_app, (accumulated_none _ mid Hmid).
    unfold call_on. rewrite Hl. simpl.
    now rewrite bool_decide_eq_true_2.
  - change (call_on root deriv :: mid ++ [call_on root deriv])
      with ([call_on root deriv] ++ mid ++ [call_on root deriv]).
    rewrite !chain_rule_calls_app, (chain_rule_calls_none _ mid Hmid).
    unfold call_on. rewrite Hl. simpl.
    now rewrite bool_decide_eq_true_2.
Qed.

(** X10. In a graph with unique ids and local chain rules, the
    [chain_rule] of every non-leaf Variable that has a History and is not
    the root is called exactly once, with the total derivative at that
    Variable: everything that reaches it has been summed before it is
    processed. *)
Theorem backpropagate_chain_rule_once (root : Var) (deriv : Z) (x : Var) :
  unique_ids root -> local_chain_rules root ->
  reach root x -> is_leaf x = false -> history x <> None -> x <> root ->
  chain_rule_calls (unique_id x) (calls (backpropagate root deriv))
  = [total_derivative root deriv (unique_id x)].
Proof.
  intros Huniq Hlocal Hx Hl Hh Hne.
  destruct (backpropagate_value root deriv x Huniq Hlocal Hx Hh Hne)
    as (c1 & c2 & -> & H1 & H2).
  change (c1 ++ call_on x (total_derivative root deriv (unique_id x)) :: c2)
    with (c1 ++ [call_on x (total_derivative root deriv (unique_id x))] ++ c2).
  rewrite !chain_rule_calls_app.
  rewrite (chain_rule_calls_none _ c1 H1), (chain_rule_calls_none _ c2 H2).
  unfold call_on. rewrite Hl. simpl.
  now rewrite bool_decide_eq_true_2.
Qed.

Lemma leaf_accumulated_value (root : Var) (deriv : Z) (x : Var) :
  unique_ids root -> local_chain_rules root ->
  reach root x -> is_leaf x = true -> history x <> None -> x <> root ->
  accumulated (unique_id x) (calls (backpropagate root deriv))
  = [deriv * path_coeff (unique_id x) root].
Proof.
  intros Huniq Hlocal Hx Hl Hh Hne.
  destruct (backpropagate_value root deriv x Huniq Hlocal Hx Hh Hne)
    as (c1 & c2 & -> & H1 & H2).
  change (c1 ++ call_on x (total_derivative root deriv (unique_id x)) :: c2)
    with (c1 ++ [call_on x (total_derivative root deriv (unique_id x))] ++ c2).
  rewrite !accumulated_app.
  rewrite (accumulated_none _ c1 H1), (accumulated_none _ c2 H2).
  unfold call_on. rewrite Hl. simpl.
  rewrite bool_decide_eq_true_2 by reflexivity. simpl.
  unfold total_derivative.
  now rewrite (path_grads_linear root Hlocal x root (reach_refl root) deriv).
Qed.

(** X11. In a graph with unique ids and local chain rules, what
    [backpropagate] accumulates on a leaf (with a History, not the root) is
    linear in the seed: the value for the seed [a + b] is the sum of the
    values for [a] and for [b], and the value for [k * a] is [k] times the
    value for [a]. *)
Theorem backpropagate_linear_in_seed (root x : Var) (a b k : Z) :
  unique_ids root -> local_chain_rules root ->
  reach root x -> is_leaf x = true -> history x <> None -> x <> root ->
  exists va vb,
    accumulated (unique_id x) (calls (backpropagate root a)) = [va] /\
    accumulated (unique_id x) (calls (backpropagate root b)) = [vb] /\
    accumulated (unique_id x) (calls (backpropagate root (a + b))) = [va + vb] /\
    accumulated (unique_id x) (calls (backpropagate root (k * a))) = [k * va].
Proof.
  intros Huniq Hlocal Hx Hl Hh Hne.
  exists (a * path_coeff (unique_id x) root), (b * path_coeff (unique_id x) root).
  rewrite !(leaf_accumulated_value root _ x Huniq Hlocal Hx Hl Hh Hne).
  repeat split; f_equal; ring.
Qed.

End BackpropagateMore.

Lemma chain_y_local : Autodiff.local_chain_rules Examples.chain_y.
Proof.
  intros v h Hr Hh Hl. apply reach_nodes in Hr. simpl in Hr.
  destruct Hr as [<-|[<-|[]]]; [|discriminate Hl].
  injection Hh as <-. exists [2]. split; [reflexivity|]. intros d. reflexivity.
Qed.

Lemma backpropagate_root_twice_witness :
  Autodiff.unique_ids Examples.chain_y /\
  Autodiff.local_chain_rules Examples.chain_y /\
  Autodiff.history Examples.chain_y <> None /\
  Autodiff.chain_rule_calls 1
    (Autodiff.calls (Autodiff.backpropagate Examples.chain_y 7)) = [7; 7].
Proof.
  split; [exact chain_y_unique_ids|]. split; [exact chain_y_local|].
  split; [discriminate|].
  apply (proj2 (backpropagate_root_twice Examples.chain_y 7
                  chain_y_unique_ids chain_y_local ltac:(discriminate))).
  reflexivity.
Defined.

Lemma diamond_reach_b : Autodiff.reach Examples.diamond_d Examples.diamond_b.
Proof. apply reach_parent. now left. Qed.

Lemma backpropagate_chain_rule_once_witness :
  Autodiff.unique_ids Examples.diamond_d /\
  Autodiff.local_chain_rules Examples.diamond_d /\
  Autodiff.chain_rule_calls 2
    (Autodiff.calls (Autodiff.backpropagate Examples.diamond_d 1)) = [5].
Proof.
  split; [exact diamond_unique_ids|]. split; [exact diamond_local|].
  apply (backpropagate_chain_rule_once Examples.diamond_d 1 Examples.diamond_b
           diamond_unique_ids diamond_local diamond_reach_b).
  - reflexivity.
  - discriminate.
  - discriminate.
Defined.

Lemma backpropagate_linear_in_seed_witness :
  Autodiff.unique_ids Examples.diamond_d /\
  Autodiff.local_chain_rules Examples.diamond_d /\
  exists va vb,
    Autodiff.accumulated 4
      (Autodiff.calls (Autodiff.backpropagate Examples.diamond_d 2)) = [va] /\
    Autodiff.accumulated 4
      (Autodiff.calls (Autodiff.backpropagate Examples.diamond_d 3)) = [vb] /\
    Autodiff.accumulated 4
      (Autodiff.calls (Autodiff.backpropagate Examples.diamond_d (2 + 3)))
    = [va + vb].
Proof.
  split; [exact diamond_unique_ids|]. split; [exact diamond_local|].
  destruct (backpropagate_linear_in_seed Examples.diamond_d Examples.diamond_x
              2 3 1 diamond_unique_ids diamond_local diamond_reach_x)
    as (va & vb & Ha & Hb & Hab & _).
  - reflexivity.
  - discriminate.
  - discriminate.
  - exists va, vb. repeat split; assumption.
Defined.

(** ** backpropagate: the dictionary of running totals *)

Section RunningTotals.
Import Autodiff.

Lemma add_grad_dom (cur : gmap Z Z) (pg : Var * Z) :
  dom (add_grad cur pg) = {[unique_id (fst pg)]} ∪ dom cur.
Proof.
  unfold add_grad.
  destruct (cur !! unique_id (fst pg)); now rewrite dom_insert_L.
Qed.

(** X12. Adding a [chain_rule] result to the dictionary: the entry of every
    id grows by the sum of the gradients addressed to that id (an absent
    entry counting as [0]), so an input listed several times receives the
    sum, and the keys afterwards are the old keys and the ids addressed. *)
Theorem chain_seq_sums (cs : list (Var * Z)) (cur : gmap Z Z) :
  (forall i, grad_of (fold_left add_grad cs cur) i = grad_of cur i + contrib i cs) /\
  dom (fold_left add_grad cs cur)
  = dom cur ∪ list_to_set (map (fun pg => unique_id (fst pg)) cs).
Proof.
  split; [intros i; apply grad_of_fold|].
  revert cur. induction cs as [|pg cs IH]; intros cur; simpl.
  - set_solver.
  - rewrite IH, add_grad_dom. set_solver.
Qed.

End RunningTotals.
